(** * rif-storage-ipfs-pinner: event handlers, processors and the job manager

    A shallow embedding of the pinning service's reconciliation engine:
    - [src/utils.ts]: [errorHandler], [isEventWithProvider], [getProcessor],
      [isValidEvent], [buildHandler], [decodeByteArray];
    - [src/processor/blockchain-events/agreement.ts]: the five agreement
      handlers;
    - [src/processor/blockchain-events/index.ts]: [filterBlockchainEvents]
      and [BlockchainEventsProcessor] ([run], [precache]);
    - [src/providers/ipfs.ts]: [PinJob._run];
    - the job manager, which is exercised by [test/unit/jobs.spec.ts].

    Asynchronous functions are functions from the world (the Agreement
    table and the chronological list of observable effects) to a settled
    promise and the new world. *)

From Stdlib Require Import String Ascii List ZArith QArith Bool Lia DecimalString.
Import ListNotations.
Open Scope string_scope.
Open Scope Z_scope.

(* ------------------------------------------------------------------ *)
(** ** JavaScript strings *)

(** Template-literal rendering of a number. *)
Definition ZtoString (z : Z) : string := NilZero.string_of_int (Z.to_int z).

(** [String.prototype.startsWith]. *)
Definition startsWith (s pre : string) : bool := String.prefix pre s.

(** White space of [String.prototype.trim] among the code units below 256
    (tab, line feed, vertical tab, form feed, carriage return, space, NBSP). *)
Definition isWhiteSpace (c : ascii) : bool :=
  let n := nat_of_ascii c in
  existsb (Nat.eqb n) [9; 10; 11; 12; 13; 32; 160]%nat.

Fixpoint trimStart (s : string) : string :=
  match s with
  | String c rest => if isWhiteSpace c then trimStart rest else s
  | EmptyString => EmptyString
  end.

Fixpoint trimEnd (s : string) : string :=
  match s with
  | String c rest =>
      match trimEnd rest with
      | EmptyString => if isWhiteSpace c then EmptyString else String c EmptyString
      | rest' => String c rest'
      end
  | EmptyString => EmptyString
  end.

Definition trim (s : string) : string := trimEnd (trimStart s).

(** [s.replace(/\0/g, '')]. *)
Fixpoint removeNulls (s : string) : string :=
  match s with
  | String c rest =>
      if Ascii.eqb c zero then removeNulls rest else String c (removeNulls rest)
  | EmptyString => EmptyString
  end.

(** [s.replace(pat, '')] with a string pattern: the first occurrence only. *)
Definition removeFirst (pat s : string) : string :=
  match index 0 pat s with
  | Some i =>
      substring 0 i s ++ substring (i + String.length pat) (String.length s - (i + String.length pat)) s
  | None => s
  end.

(* ------------------------------------------------------------------ *)
(** ** Errors *)

(** Modelled from the spec: the static [code] of the error classes of
    [src/errors.ts] (not among the sources), one per class of the taxonomy
    of section 7 that the sources throw or test; [OtherCode] is a code
    carried by an error of a collaborator. *)
Inductive ErrorCode : Type :=
| NOT_PINNED_ERR
| EVENT_ERR
| HASH_EXCEEDS_SIZE_ERR
| OtherCode (c : string).

(** Modelled from the spec: the thrown values, with the error classes of
    [src/errors.ts] (not among the sources) as the sources construct them:
    [new EventError(message, event)], [new NotPinnedError(message)],
    [new HashExceedsSizeError(message, size, expectedSize)], and the plain
    [new Error(message)]. [ForeignError] is anything thrown by a
    collaborator (IPFS client, provider manager, database), with its
    [name], optional [code] and [message]. *)
Inductive JsError : Type :=
| Error (message : string)
| EventError (message : string) (event : string)
| NotPinnedError (message : string)
| HashExceedsSizeError (message : string) (size expectedSize : Z)
| ForeignError (name : string) (code : option ErrorCode) (message : string).

Definition err_code (e : JsError) : option ErrorCode :=
  match e with
  | Error _ => None
  | EventError _ _ => Some EVENT_ERR
  | NotPinnedError _ => Some NOT_PINNED_ERR
  | HashExceedsSizeError _ _ _ => Some HASH_EXCEEDS_SIZE_ERR
  | ForeignError _ c _ => c
  end.

Definition err_name (e : JsError) : string :=
  match e with
  | Error _ => "Error"
  | EventError _ _ => "EventError"
  | NotPinnedError _ => "NotPinnedError"
  | HashExceedsSizeError _ _ _ => "HashExceedsSizeError"
  | ForeignError n _ _ => n
  end.

Definition err_message (e : JsError) : string :=
  match e with
  | Error m | EventError m _ | NotPinnedError m
  | HashExceedsSizeError m _ _ | ForeignError _ _ m => m
  end.

Definition ErrorCode_eqb (a b : ErrorCode) : bool :=
  match a, b with
  | NOT_PINNED_ERR, NOT_PINNED_ERR => true
  | EVENT_ERR, EVENT_ERR => true
  | HASH_EXCEEDS_SIZE_ERR, HASH_EXCEEDS_SIZE_ERR => true
  | OtherCode x, OtherCode y => String.eqb x y
  | _, _ => false
  end.

(** [e.code === NotPinnedError.code]. *)
Definition hasNotPinnedCode (e : JsError) : bool :=
  match err_code e with
  | Some c => ErrorCode_eqb c NOT_PINNED_ERR
  | None => false
  end.

(* ------------------------------------------------------------------ *)
(** ** The Agreement model and the observable effects *)

(** A [Date], as milliseconds since the epoch. *)
Definition Date : Type := Z.

(** Modelled from the spec: the Agreement entity
    ([src/models/agreement.model.ts] is not among the sources); section 3
    of the specification lists its columns, [agreementReference] is the
    primary key. *)
Record Agreement : Type := mkAgreement {
  agreementReference : string;
  dataReference : string;
  consumer : string;
  offerId : option string;
  size : Z;
  billingPeriod : Z;
  billingPrice : Z;
  availableFunds : Z;
  expiredAtBlockNumber : option Z;
  lastPayout : Date;
  isActive : bool
}.

(** Modelled from the spec: [MessageCodesEnum] of [src/definitions.ts] (not
    among the sources): the notification codes of section 6, under the names
    the sources and the job tests use. *)
Inductive MessageCodesEnum : Type :=
| I_AGREEMENT_NEW
| I_AGREEMENT_STOPPED
| I_HASH_START
| I_HASH_PINNED
| W_HASH_RETRY
| E_GENERAL
| E_AGREEMENT_SIZE_LIMIT_EXCEEDED.

Inductive Payload : Type :=
| PAgreement (agreementReference : string)
| PHash (hash : string)
| PRetry (hash : string) (retryNumber totalRetries : nat) (error : string)
| PError (hash : string) (error : string)
| PSizeLimit (hash : string) (size expectedSize : Z).

Inductive LogLevel : Type := LError | LInfo | LVerbose | LDebug.

Inductive LogArg : Type :=
| LogText (s : string)
| LogErr (e : JsError).

(** What the service does to its collaborators, in the order it does it. *)
Inductive Effect : Type :=
| DbUpsert (agreementReference : string)
| DbSave (agreementReference : string)
| PinRequest (hash : string) (size : Z) (agreementReference : option string)
| UnpinRequest (hash : string)
| Broadcast (code : MessageCodesEnum) (payload : Payload)
| Log (logger : string) (level : LogLevel) (arg : LogArg).

Record World : Type := mkWorld {
  agreements : list Agreement;
  effects : list Effect
}.

Definition emptyWorld : World := mkWorld [] [].

(* ------------------------------------------------------------------ *)
(** ** Promises *)

Inductive Settled (A : Type) : Type :=
| Resolved (a : A)
| Rejected (e : JsError).
Arguments Resolved {A} a.
Arguments Rejected {A} e.

(** An asynchronous computation. *)
Definition Async (A : Type) : Type := World -> Settled A * World.

Definition resolve {A} (a : A) : Async A := fun w => (Resolved a, w).
Definition throw {A} (e : JsError) : Async A := fun w => (Rejected e, w).

Definition await {A B} (c : Async A) (k : A -> Async B) : Async B :=
  fun w =>
    match c w with
    | (Resolved a, w') => k a w'
    | (Rejected e, w') => (Rejected e, w')
    end.

(** [try { c } catch (e) { h e }]. *)
Definition tryCatch {A} (c : Async A) (h : JsError -> Async A) : Async A :=
  fun w =>
    match c w with
    | (Resolved a, w') => (Resolved a, w')
    | (Rejected e, w') => h e w'
    end.

Notation "x <- c ;; k" := (await c (fun x => k))
  (at level 61, c at next level, right associativity).
Notation "c ;;; k" := (await c (fun _ => k))
  (at level 61, right associativity).

Definition perform (e : Effect) : Async unit :=
  fun w => (Resolved tt, mkWorld (agreements w) (effects w ++ [e])).

Definition getWorld : Async World := fun w => (Resolved w, w).

Definition setAgreements (rows : list Agreement) : Async unit :=
  fun w => (Resolved tt, mkWorld rows (effects w)).

Definition logger_log (name : string) (level : LogLevel) (arg : LogArg) : Async unit :=
  perform (Log name level arg).

(** Modelled from the spec: [broadcast(code, payload)] of
    [src/communication.ts] (not among the sources), the fire-and-forget
    notification channel of section 6. *)
Definition broadcast (code : MessageCodesEnum) (p : Payload) : Async unit :=
  perform (Broadcast code p).

(* ------------------------------------------------------------------ *)
(** ** The Agreement table *)

Definition hasPk (id : string) (a : Agreement) : bool :=
  String.eqb (agreementReference a) id.

Definition findByPk_rows (id : string) (rows : list Agreement) : option Agreement :=
  find (hasPk id) rows.

(** Number of rows with primary key [id]. *)
Definition countPk (id : string) (rows : list Agreement) : nat :=
  List.length (filter (hasPk id) rows).

(** The primary-key constraint of the table. *)
Definition pkUnique (rows : list Agreement) : Prop :=
  NoDup (map agreementReference rows).

(** [UPDATE ... WHERE agreementReference = a.agreementReference]. *)
Definition updateRows (a : Agreement) (rows : list Agreement) : list Agreement :=
  map (fun r => if hasPk (agreementReference a) r then a else r) rows.

(** The values [NewAgreement] hands to [Agreement.upsert]: every column
    but [isActive]. *)
Record AgreementData : Type := mkData {
  d_agreementReference : string;
  d_dataReference : string;
  d_consumer : string;
  d_offerId : option string;
  d_size : Z;
  d_billingPeriod : Z;
  d_billingPrice : Z;
  d_availableFunds : Z;
  d_expiredAtBlockNumber : option Z;
  d_lastPayout : Date
}.

Definition withData (d : AgreementData) (active : bool) : Agreement :=
  mkAgreement (d_agreementReference d) (d_dataReference d) (d_consumer d)
    (d_offerId d) (d_size d) (d_billingPeriod d) (d_billingPrice d)
    (d_availableFunds d) (d_expiredAtBlockNumber d) (d_lastPayout d) active.

(** Modelled from the spec: [Agreement.upsert] (the model and the
    persistence layer are not among the sources; section 6 asks for an
    idempotent upsert keyed by the id). An existing row with the primary
    key takes the given values and keeps [isActive]; otherwise a row is
    inserted with [isActive] at its default, [true]. Resolves with the
    stored instance. *)
Definition upsertInstance (d : AgreementData) (rows : list Agreement) : Agreement :=
  match findByPk_rows (d_agreementReference d) rows with
  | Some old => withData d (isActive old)
  | None => withData d true
  end.

Definition upsertRows (d : AgreementData) (rows : list Agreement) : list Agreement :=
  match findByPk_rows (d_agreementReference d) rows with
  | Some _ => updateRows (upsertInstance d rows) rows
  | None => rows ++ [upsertInstance d rows]
  end.

Definition Agreement_upsert (d : AgreementData) : Async Agreement :=
  w <- getWorld ;;
  setAgreements (upsertRows d (agreements w)) ;;;
  perform (DbUpsert (d_agreementReference d)) ;;;
  resolve (upsertInstance d (agreements w)).

(** Modelled from the spec: [Agreement.findByPk] (find-by-id of section 6);
    an absent key ([undefined]) finds nothing. *)
Definition Agreement_findByPk (id : option string) : Async (option Agreement) :=
  w <- getWorld ;;
  resolve (match id with
           | Some i => findByPk_rows i (agreements w)
           | None => None
           end).

(** Modelled from the spec: [agreement.save()] of a loaded instance (save
    of section 6): the row with the instance's primary key is overwritten. *)
Definition Agreement_save (a : Agreement) : Async unit :=
  w <- getWorld ;;
  setAgreements (updateRows a (agreements w)) ;;;
  perform (DbSave (agreementReference a)).

(** Modelled from the spec: [Agreement.findAll] (find-all of section 6). *)
Definition Agreement_findAll : Async (list Agreement) :=
  w <- getWorld ;;
  resolve (agreements w).

Definition set_isActive (b : bool) (a : Agreement) : Agreement :=
  mkAgreement (agreementReference a) (dataReference a) (consumer a) (offerId a)
    (size a) (billingPeriod a) (billingPrice a) (availableFunds a)
    (expiredAtBlockNumber a) (lastPayout a) b.

Definition set_availableFunds (f : Z) (a : Agreement) : Agreement :=
  mkAgreement (agreementReference a) (dataReference a) (consumer a) (offerId a)
    (size a) (billingPeriod a) (billingPrice a) f
    (expiredAtBlockNumber a) (lastPayout a) (isActive a).

Definition set_lastPayout (d : Date) (a : Agreement) : Agreement :=
  mkAgreement (agreementReference a) (dataReference a) (consumer a) (offerId a)
    (size a) (billingPeriod a) (billingPrice a) (availableFunds a)
    (expiredAtBlockNumber a) d (isActive a).

(* ------------------------------------------------------------------ *)
(** ** Events and handler options *)

(** [returnValues] of a contract event, with the fields the sources read.
    [provider] and [agreementReference] are probed on events of any type by
    [filterBlockchainEvents] and so may be absent ([undefined]). *)
Record ReturnValues : Type := mkReturnValues {
  provider : option string;
  rv_agreementReference : option string;
  agreementCreator : string;
  rv_dataReference : list string;
  rv_size : Z;
  rv_billingPeriod : Z;
  rv_billingPrice : Z;
  token : string;
  rv_availableFunds : Z;
  amount : Z
}.

Record BlockchainEvent : Type := mkEvent {
  event : string;
  blockNumber : Z;
  returnValues : ReturnValues
}.

(** Rendering of a possibly undefined string in a template literal. *)
Definition showOpt (o : option string) : string :=
  match o with
  | Some s => s
  | None => "undefined"
  end.

(** The chain handle ([web3-eth]): the timestamp of a block. *)
Record Eth : Type := mkEth { blockTimestamp : Z -> Date }.

(** Modelled from the spec: the provider manager ([src/providers/index.ts]
    is not among the sources), the content store of section 6: the outcome
    of a pin or unpin request, [None] for success; it may depend on
    everything that happened before. *)
Record ProviderManager : Type := mkManager {
  pinOutcome : World -> string -> Z -> option string -> option JsError;
  unpinOutcome : World -> string -> option JsError
}.

Definition settle (o : option JsError) : Async unit :=
  match o with
  | None => resolve tt
  | Some e => throw e
  end.

Definition manager_pin (m : ProviderManager) (hash : string) (expectedSize : Z)
    (ref : option string) : Async unit :=
  perform (PinRequest hash expectedSize ref) ;;;
  w <- getWorld ;;
  settle (pinOutcome m w hash expectedSize ref).

Definition manager_unpin (m : ProviderManager) (hash : string) : Async unit :=
  perform (UnpinRequest hash) ;;;
  w <- getWorld ;;
  settle (unpinOutcome m w hash).

(** [BlockchainEventProcessorOptions], the fields the handlers read; both
    are missing from the [{}] that [buildHandler] substitutes for undefined
    options. *)
Record Options : Type := mkOptions {
  manager : option ProviderManager;
  eth : option Eth
}.

Definition noOptions : Options := mkOptions None None.

(** Modelled from the spec: [getBlockDate] ([src/blockchain/utils.ts] is not
    among the sources): the timestamp derived from the block with the given
    number, read through the chain handle; without a handle the property
    access throws. *)
Definition getBlockDate (e : option Eth) (blockNumber : Z) : Async Date :=
  match e with
  | Some h => resolve (blockTimestamp h blockNumber)
  | None => throw (ForeignError "TypeError" None "Cannot read property of undefined")
  end.

Definition Handler : Type := BlockchainEvent -> Options -> Async unit.

(** A [HandlersObject]: its own properties, by name. *)
Definition HandlersObject : Type := list (string * Handler).

Record EventsHandler : Type := mkEventsHandler {
  events : list string;
  process : BlockchainEvent -> option Options -> Async unit
}.

Definition Processor : Type := BlockchainEvent -> Async unit.

(* ------------------------------------------------------------------ *)
(** ** [src/utils.ts] *)

(** [fn(...args).catch(err => logger.error(err))]. *)
Definition errorHandler (fn : Processor) (logger : string) : Processor :=
  fun ev => tryCatch (fn ev) (fun err => logger_log logger LError (LogErr err)).

(** [Boolean(event.returnValues.provider)]. *)
Definition isEventWithProvider (ev : BlockchainEvent) : bool :=
  match provider (returnValues ev) with
  | Some p => negb (String.eqb p "")
  | None => false
  end.

Record GetProcessorOptions : Type := mkGetProcessorOptions {
  opt_errorHandler : option (Processor -> string -> Processor);
  opt_errorLogger : option string;
  processorDeps : option Options
}.

(** [await Promise.all(promises)]: every promise of the list has been
    started and runs to its end; the first rejection, if any, is the
    result. The handlers are run one after the other, in list order (their
    interleaving at the awaits is not represented). This is the code's
    behaviour for a list of at most one promise. With more than one, the
    [Promise.all] of the code settles at the first rejection, while the
    other promises are still running, and a handler that throws before it
    returns its promise keeps the later ones from being started: the
    properties below that depend on it are stated for one handler naming
    the event. *)
Fixpoint Promise_all (ps : list (Async unit)) : Async unit :=
  match ps with
  | [] => resolve tt
  | p :: rest =>
      fun w =>
        match p w with
        | (Resolved _, w') => Promise_all rest w'
        | (Rejected e, w') => (Rejected e, snd (Promise_all rest w'))
        end
  end.

Definition includes (l : list string) (s : string) : bool :=
  existsb (String.eqb s) l.

(** The [processor] arrow function of [getProcessor]. *)
Definition getProcessor_processor (handlers : list EventsHandler)
    (options : option GetProcessorOptions) : Processor :=
  fun ev =>
    let promises :=
      map (fun handler =>
             process handler ev
               (match options with
                | Some o => processorDeps o
                | None => None
                end))
          (filter (fun handler => includes (events handler) (event ev)) handlers) in
    Promise_all promises.

(** [options?.errorLogger ?? loggingFactory('processor')]. *)
Definition getProcessor_logger (options : option GetProcessorOptions) : string :=
  match options with
  | Some o =>
      match opt_errorLogger o with
      | Some l => l
      | None => "processor"
      end
  | None => "processor"
  end.

Definition getProcessor (handlers : list EventsHandler)
    (options : option GetProcessorOptions) : Processor :=
  let errHandler :=
    match options with
    | Some o =>
        match opt_errorHandler o with
        | Some h => h
        | None => errorHandler
        end
    | None => errorHandler
    end in
  errHandler (getProcessor_processor handlers options) (getProcessor_logger options).

Fixpoint lookupHandler (name : string) (handlers : HandlersObject) : option Handler :=
  match handlers with
  | [] => None
  | (k, h) :: rest => if String.eqb k name then Some h else lookupHandler name rest
  end.

(** The properties every object literal inherits from [Object.prototype]. *)
Definition objectPrototypeKeys : list string :=
  [ "constructor"; "__defineGetter__"; "__defineSetter__"; "hasOwnProperty";
    "__lookupGetter__"; "__lookupSetter__"; "isPrototypeOf"; "propertyIsEnumerable";
    "toString"; "valueOf"; "__proto__"; "toLocaleString" ].

(** [value in handlers]: an own property or an inherited one. *)
Definition isValidEvent (value : string) (handlers : HandlersObject) : bool :=
  match lookupHandler value handlers with
  | Some _ => true
  | None => includes objectPrototypeKeys value
  end.

(** [handlers[name](event, options)] for an inherited property: calling
    [__proto__] (not a function) or defining an accessor with the options
    object throws a [TypeError], which the asynchronous caller sees as a
    rejection; the other inherited methods return a value that is no
    promise. *)
Definition inheritedCall (name : string) : Async unit :=
  if includes ["__proto__"; "__defineGetter__"; "__defineSetter__"] name
  then throw (ForeignError "TypeError" None "not a function")
  else resolve tt.

Definition buildHandler (handlers : HandlersObject) (evs : list string) : EventsHandler :=
  mkEventsHandler evs
    (fun ev options =>
       if negb (isValidEvent (event ev) handlers)
       then throw (Error ("Unknown event " ++ event ev))
       else
         match lookupHandler (event ev) handlers with
         | Some h =>
             h ev (match options with
                   | Some o => o
                   | None => noOptions
                   end)
         | None => inheritedCall (event ev)
         end).

Section Web3Utils.

(** [hexToAscii] and [soliditySha3] of the [web3-utils] package. *)
Variable hexToAscii : string -> string.
Variable soliditySha3 : list string -> string.

(** Utility function for decoding Solidity's byte32 array. *)
Definition decodeByteArray (fileReference : list string) : string :=
  removeNulls (trim (String.concat "" (map hexToAscii fileReference))).

(* ------------------------------------------------------------------ *)
(** ** [src/processor/blockchain-events/agreement.ts] *)

Definition agreementLogger : string := "processor:blockchain:agreement".

Definition notFound (id : option string) (name : string) : JsError :=
  EventError ("Agreement with ID " ++ showOpt id ++ " was not found!") name.

Definition NewAgreement : Handler := fun ev options =>
  let rv := returnValues ev in
  let offerId := provider rv in
  let consumer := agreementCreator rv in
  let dReference := rv_dataReference rv in
  let reference := soliditySha3 (consumer :: dReference ++ [token rv]) in
  let dataReference := decodeByteArray dReference in
  lastPayout <- getBlockDate (eth options) (blockNumber ev) ;;
  let data :=
    mkData reference dataReference consumer offerId (rv_size rv)
      (rv_billingPeriod rv) (rv_billingPrice rv) (rv_availableFunds rv)
      None (* If not new, then lets reset the expiredAt column *)
      lastPayout in
  agreement <- Agreement_upsert data ;; (* Agreement might already exist *)
  logger_log agreementLogger LInfo
    (LogText ("Created new Agreement with ID " ++ reference
              ++ " for offer " ++ showOpt offerId)) ;;;
  match manager options with
  | Some m =>
      manager_pin m dataReference (size agreement)
        (Some (agreementReference agreement)) ;;;
      broadcast I_AGREEMENT_NEW (PAgreement reference)
  | None => resolve tt
  end.

Definition AgreementStopped : Handler := fun ev options =>
  let id := rv_agreementReference (returnValues ev) in
  found <- Agreement_findByPk id ;;
  match found with
  | None => throw (notFound id "AgreementStopped")
  | Some agreement =>
      let agreement := set_isActive false agreement in
      Agreement_save agreement ;;;
      match manager options with
      | Some m =>
          tryCatch (manager_unpin m (dataReference agreement))
            (fun e =>
               (* We ignore not-pinned errors because the files might be already GCed *)
               if negb (hasNotPinnedCode e) then throw e else resolve tt) ;;;
          broadcast I_AGREEMENT_STOPPED (PAgreement (agreementReference agreement))
      | None => resolve tt
      end ;;;
      logger_log agreementLogger LInfo
        (LogText ("Agreement " ++ showOpt id ++ " was stopped."))
  end.

Definition AgreementFundsDeposited : Handler := fun ev _ =>
  let id := rv_agreementReference (returnValues ev) in
  let amount := amount (returnValues ev) in
  found <- Agreement_findByPk id ;;
  match found with
  | None => throw (notFound id "AgreementFundsDeposited")
  | Some agreement =>
      let agreement := set_availableFunds (availableFunds agreement + amount) agreement in
      Agreement_save agreement ;;;
      logger_log agreementLogger LInfo
        (LogText ("Agreement " ++ showOpt id ++ " was topped up with "
                  ++ ZtoString amount ++ "."))
  end.

Definition AgreementFundsWithdrawn : Handler := fun ev _ =>
  let id := rv_agreementReference (returnValues ev) in
  let amount := amount (returnValues ev) in
  found <- Agreement_findByPk id ;;
  match found with
  | None => throw (notFound id "AgreementFundsWithdrawn")
  | Some agreement =>
      let agreement := set_availableFunds (availableFunds agreement - amount) agreement in
      Agreement_save agreement ;;;
      logger_log agreementLogger LInfo
        (LogText (ZtoString amount ++ " was withdrawn from funds of Agreement "
                  ++ showOpt id ++ "."))
  end.

Definition AgreementFundsPayout : Handler := fun ev options =>
  let id := rv_agreementReference (returnValues ev) in
  let amount := amount (returnValues ev) in
  found <- Agreement_findByPk id ;;
  match found with
  | None => throw (notFound id "AgreementFundsWithdrawn")
  | Some agreement =>
      date <- getBlockDate (eth options) (blockNumber ev) ;;
      let agreement := set_lastPayout date agreement in
      let agreement := set_availableFunds (availableFunds agreement - amount) agreement in
      Agreement_save agreement ;;;
      logger_log agreementLogger LInfo
        (LogText (ZtoString amount ++ " was payed out from funds of Agreement "
                  ++ showOpt id ++ "."))
  end.

Definition handlers : HandlersObject :=
  [ ("NewAgreement", NewAgreement);
    ("AgreementStopped", AgreementStopped);
    ("AgreementFundsDeposited", AgreementFundsDeposited);
    ("AgreementFundsWithdrawn", AgreementFundsWithdrawn);
    ("AgreementFundsPayout", AgreementFundsPayout) ].

(** The module's default export. *)
Definition agreement : EventsHandler :=
  buildHandler handlers
    [ "NewAgreement"; "AgreementFundsDeposited"; "AgreementFundsWithdrawn";
      "AgreementFundsPayout"; "AgreementStopped" ].

End Web3Utils.

(* ------------------------------------------------------------------ *)
(** ** [src/processor/blockchain-events/index.ts] *)

Definition blockchainLogger : string := "processor:blockchain".
Definition precacheLogger : string := "processor:blockchain:precache".

(** [event.returnValues.provider === offerId]. *)
Definition providerIs (offerId : string) (ev : BlockchainEvent) : bool :=
  match provider (returnValues ev) with
  | Some p => String.eqb p offerId
  | None => false
  end.

Definition filterBlockchainEvents (offerId : string) (callback : Processor) : Processor :=
  fun ev =>
    logger_log blockchainLogger LDebug
      (LogText ("Got " ++ event ev ++ " for provider "
                ++ showOpt (provider (returnValues ev)))) ;;;
    if isEventWithProvider ev && providerIs offerId ev then callback ev
    else
      found <- (if startsWith (event ev) "Agreement"
                then Agreement_findByPk (rv_agreementReference (returnValues ev))
                else resolve None) ;;
      match found with
      | Some _ => callback ev
      | None =>
          logger_log blockchainLogger LDebug
            (LogText ("Events not related to offer " ++ offerId))
      end.

(** [AppOptions] of [src/definitions.ts], the fields
    [BlockchainEventsProcessor] reads. *)
Record AppOptions : Type := mkAppOptions {
  forcePrecache : option bool;
  contractAddress : option string
}.

(** Truthiness of an optional boolean and of an optional number. *)
Definition truthyBool (b : option bool) : bool :=
  match b with
  | Some true => true
  | _ => false
  end.

Definition truthyNumber (n : option Z) : bool :=
  match n with
  | Some z => negb (z =? 0)
  | None => false
  end.

(** [for (const event of dataQueue) { await _processor(event) }]: a
    rejection leaves the loop. *)
Fixpoint drainQueue (P : Processor) (dataQueue : list BlockchainEvent) : Async unit :=
  match dataQueue with
  | [] => resolve tt
  | ev :: rest => P ev ;;; drainQueue P rest
  end.

(** One call of the processor after the other, whatever each one settles
    to: what an emitter does with a listener over a run of [newEvent]s. *)
Definition dispatchAll (P : Processor) (evs : list BlockchainEvent) (w : World) : World :=
  fold_left (fun w ev => snd (P ev w)) evs w.

(** Listeners of the events emitter's [newEvent]. *)
Inductive NewEventListener : Type :=
| DataQueuePusher      (* [dataQueuePusher] of [precache] *)
| ProcessorListener.   (* [this.processor] *)

Definition NewEventListener_eqb (a b : NewEventListener) : bool :=
  match a, b with
  | DataQueuePusher, DataQueuePusher => true
  | ProcessorListener, ProcessorListener => true
  | _, _ => false
  end.

(** [emitter.off(name, listener)]: the most recently added instance of the
    listener is removed. *)
Fixpoint offLast (l : NewEventListener) (ls : list NewEventListener) : list NewEventListener :=
  match ls with
  | [] => []
  | x :: rest =>
      if existsb (NewEventListener_eqb l) rest then x :: offLast l rest
      else if NewEventListener_eqb l x then rest
      else x :: rest
  end.

Inductive PromiseState : Type :=
| NotStarted
| Pending
| Done (r : Settled unit).

(** The mutable state of a [BlockchainEventsProcessor], of the emitters it
    creates, of the process-wide store and of the [dataQueue] closure of
    [precache]. *)
Record ProcessorState : Type := mkState {
  initialized : bool;
  newEventListeners : list NewEventListener;
  initFinishedListeners : nat;  (* instances of [precache]'s listener *)
  errorListeners : nat;
  newBlockListeners : nat;
  dataQueue : list BlockchainEvent;
  runPromise : PromiseState;
  lastFetchedBlockNumber : option Z;  (* [getObject().lastFetchedBlockNumber] *)
  world : World
}.

Definition initialState (lastFetched : option Z) (w : World) : ProcessorState :=
  mkState false [] 0 0 0 [] NotStarted lastFetched w.

Definition set_world (w : World) (st : ProcessorState) : ProcessorState :=
  mkState (initialized st) (newEventListeners st) (initFinishedListeners st)
    (errorListeners st) (newBlockListeners st) (dataQueue st) (runPromise st)
    (lastFetchedBlockNumber st) w.

Definition set_runPromise (p : PromiseState) (st : ProcessorState) : ProcessorState :=
  mkState (initialized st) (newEventListeners st) (initFinishedListeners st)
    (errorListeners st) (newBlockListeners st) (dataQueue st) p
    (lastFetchedBlockNumber st) (world st).

Definition set_newEventListeners (ls : list NewEventListener) (st : ProcessorState)
    : ProcessorState :=
  mkState (initialized st) ls (initFinishedListeners st)
    (errorListeners st) (newBlockListeners st) (dataQueue st) (runPromise st)
    (lastFetchedBlockNumber st) (world st).

(** Signals of the events emitter. *)
Inductive Signal : Type :=
| NewEvent (ev : BlockchainEvent)
| InitFinished.

Section BlockchainEventsProcessor.

Variable hexToAscii : string -> string.
Variable soliditySha3 : list string -> string.

(** The default export of [./offer], the handler of the offer events. *)
Variable offer : EventsHandler.

(** The [hasSufficientFunds] getter of the Agreement model. *)
Variable hasSufficientFunds : Agreement -> bool.

(** Constructor arguments and the chain handle of [ethFactory()]. *)
Variable offerId : string.
Variable manager : ProviderManager.
Variable options : option AppOptions.
Variable eth : Eth.

(** Modelled from the spec: [EventProcessor.getProcessor] of the base class
    ([src/processor/index.ts] is not among the sources): the handlers are
    given the injected content-store handle with the processor's options
    and are wrapped in the error boundary (section 4.3). *)
Definition this_getProcessor (hs : list EventsHandler) : Processor :=
  getProcessor hs
    (Some (mkGetProcessorOptions None (Some blockchainLogger)
             (Some (mkOptions (Some manager) (Some eth))))).

(** [this.processor]. *)
Definition this_processor : Processor :=
  filterBlockchainEvents offerId
    (this_getProcessor [offer; agreement hexToAscii soliditySha3]).

Definition onAsync (c : Async unit) (st : ProcessorState) : Settled unit * ProcessorState :=
  let (r, w) := c (world st) in (r, set_world w st).

Definition initialize (st : ProcessorState) : Settled unit * ProcessorState :=
  if initialized st then (Rejected (Error "Already Initialized"), st)
  else
    (Resolved tt,
     mkState true (newEventListeners st) (initFinishedListeners st)
       (errorListeners st) (newBlockListeners st) (dataQueue st) (runPromise st)
       (lastFetchedBlockNumber st) (world st)).

(** [precache], up to the promise it waits for: the two listeners are
    registered on the events emitter. *)
Definition precache_begin (st : ProcessorState) : ProcessorState :=
  let st := if initialized st then st else snd (initialize st) in
  let st := snd (onAsync (logger_log precacheLogger LVerbose (LogText "Populating database")) st) in
  mkState (initialized st) (newEventListeners st ++ [DataQueuePusher])
    (S (initFinishedListeners st)) (errorListeners st) (newBlockListeners st)
    [] (runPromise st) (lastFetchedBlockNumber st) (world st).

(** Now lets pin every Agreement that has funds. *)
Fixpoint pinValid (rows : list Agreement) : Async unit :=
  match rows with
  | [] => resolve tt
  | a :: rest =>
      (if hasSufficientFunds a
       then manager_pin manager (dataReference a) (size a) None
       else resolve tt) ;;;
      pinValid rest
  end.

Definition precache_end : Async unit :=
  logger_log precacheLogger LInfo (LogText "Pinning valid Agreements") ;;;
  rows <- Agreement_findAll ;;
  pinValid rows.

(** The rest of [run], after the precache: the listeners of live mode. *)
Definition run_listen (st : ProcessorState) : ProcessorState :=
  mkState (initialized st) (newEventListeners st ++ [ProcessorListener])
    (initFinishedListeners st) (S (errorListeners st)) (S (newBlockListeners st))
    (dataQueue st) (Done (Resolved tt)) (lastFetchedBlockNumber st) (world st).

(** [run], up to its first wait on the emitter. *)
Definition run (st : ProcessorState) : ProcessorState :=
  let st := if initialized st then st else snd (initialize st) in
  (* If not set then it is first time running ==> precache *)
  if negb (truthyNumber (lastFetchedBlockNumber st))
     && negb (truthyBool (match options with
                          | Some o => forcePrecache o
                          | None => None
                          end))
  then precache_begin (set_runPromise Pending st)
  else run_listen st.

(** The listener of [initFinished] registered by [precache], together with
    what [precache] and [run] do once the promise it settles has settled.
    The whole handoff is one step here: the state it gives is the state the
    handoff ends in. In the code [emit('initFinished')] returns at the
    listener's first [await]; the steps of the handoff, for the signals that
    arrive while it is under way, are [onInitFinished_off] and
    [onInitFinished_settle] below. *)
Definition onInitFinished (st : ProcessorState) : ProcessorState :=
  let st := set_newEventListeners (offLast DataQueuePusher (newEventListeners st)) st in
  (* Needs to be sequentially processed *)
  let (r, st) := onAsync (drainQueue this_processor (dataQueue st)) st in
  match runPromise st with
  | Pending =>
      match r with
      | Resolved _ =>
          let (r', st) := onAsync precache_end st in
          match r' with
          | Resolved _ => run_listen st
          | Rejected e => set_runPromise (Done (Rejected e)) st
          end
      | Rejected e => set_runPromise (Done (Rejected e)) st
      end
  | _ => st
  end.

Definition onNewEvent (ev : BlockchainEvent) (st : ProcessorState) (l : NewEventListener)
    : ProcessorState :=
  match l with
  | DataQueuePusher =>
      mkState (initialized st) (newEventListeners st) (initFinishedListeners st)
        (errorListeners st) (newBlockListeners st) (dataQueue st ++ [ev])
        (runPromise st) (lastFetchedBlockNumber st) (world st)
  | ProcessorListener => snd (onAsync (this_processor ev) st)
  end.

(** [eventsEmitter.emit(...)]: the listeners registered at the time of the
    call are invoked in the order of their registration. *)
Definition emit (s : Signal) (st : ProcessorState) : ProcessorState :=
  match s with
  | NewEvent ev => fold_left (onNewEvent ev) (newEventListeners st) st
  | InitFinished => Nat.iter (initFinishedListeners st) onInitFinished st
  end.

Definition emitAll (ss : list Signal) (st : ProcessorState) : ProcessorState :=
  fold_left (fun st s => emit s st) ss st.

(** The listener of [initFinished] by its steps. Its first statement,
    [_eventsEmitter?.off('newEvent', dataQueuePusher)], runs inside
    [emit('initFinished')]. *)
Definition onInitFinished_off (st : ProcessorState) : ProcessorState :=
  set_newEventListeners (offLast DataQueuePusher (newEventListeners st)) st.

(** What follows it: the loop over the queue, the settlement of the promise
    [precache] waits for, the pinning of the valid Agreements and the rest
    of [run]. All of it lies behind an [await], so the emitter serves
    further signals meanwhile. *)
Definition onInitFinished_settle (st : ProcessorState) : ProcessorState :=
  (* Needs to be sequentially processed *)
  let (r, st) := onAsync (drainQueue this_processor (dataQueue st)) st in
  match runPromise st with
  | Pending =>
      match r with
      | Resolved _ =>
          let (r', st) := onAsync precache_end st in
          match r' with
          | Resolved _ => run_listen st
          | Rejected e => set_runPromise (Done (Rejected e)) st
          end
      | Rejected e => set_runPromise (Done (Rejected e)) st
      end
  | _ => st
  end.

End BlockchainEventsProcessor.

(* ------------------------------------------------------------------ *)
(** ** Jobs and the job manager *)

(** Modelled from the spec: [JobState] of [src/definitions.ts] (not among
    the sources), the states of section 3. *)
Inductive JobState : Type := CREATED | RUNNING | BACKOFF | FINISHED | ERRORED.

(** Modelled from the spec: the persisted Job record of section 3
    ([src/models/job.model.ts] is not among the sources); [retry] is the
    attempt and the ceiling, shown as [attempt/max]. *)
Record JobModel : Type := mkJobModel {
  job_name : string;
  state : JobState;
  retry : option (nat * nat);
  errorMessage : option string
}.

(** What a job and its manager act on: the persisted record of the job (none
    before the first save), the number of invocations of the job's body so
    far, and the effects in order. *)
Record JobWorld : Type := mkJobWorld {
  entity : option JobModel;
  invocations : nat;
  jobEffects : list Effect
}.

Definition newJobWorld : JobWorld := mkJobWorld None 0 [].

(** Modelled from the spec: a [Job] of section 4.1 ([src/jobs-manager.ts] is
    not among the sources): the outcome of its body [_run] at each
    invocation, counted from 0 as the stub of [test/unit/jobs.spec.ts]
    counts calls, with the effects of that invocation; and the outcome of
    the optional hooks. *)
Record Job : Type := mkJob {
  name : string;
  pre : option (option JsError);
  _run : nat -> list Effect * option JsError;
  after : option (option JsError)
}.

(** [StubJob] of the job tests: no hooks, the body is the stub. *)
Definition StubJob (jobName : string) (stub : nat -> option JsError) : Job :=
  mkJob jobName None (fun i => ([], stub i)) None.

Definition currentEntity (job : Job) (w : JobWorld) : JobModel :=
  match entity w with
  | Some e => e
  | None => mkJobModel (name job) CREATED None None
  end.

(** Set the state (and the error message on a failure) and save. *)
Definition persist (job : Job) (s : JobState) (msg : option string) (w : JobWorld) : JobWorld :=
  let e := currentEntity job w in
  mkJobWorld
    (Some (mkJobModel (job_name e) s (retry e)
             (match msg with
              | Some m => Some m
              | None => errorMessage e
              end)))
    (invocations w) (jobEffects w).

Definition jobPerform (e : Effect) (w : JobWorld) : JobWorld :=
  mkJobWorld (entity w) (invocations w) (jobEffects w ++ [e]).

Definition hookOutcome (h : option (option JsError)) : option JsError :=
  match h with
  | Some o => o
  | None => None
  end.

(** Modelled from the spec: [Job.run] ([src/jobs-manager.ts] is not among
    the sources; section 4.1): the job becomes RUNNING and is persisted, the
    optional [pre] hook runs, then the body, then the optional [after] hook
    (whenever [pre] succeeded, also after a failed body); the job ends
    FINISHED, or ERRORED with the error message, as [test/unit/jobs.spec.ts]
    observes. *)
Definition Job_run (job : Job) (w : JobWorld) : Settled unit * JobWorld :=
  let w := persist job RUNNING None w in
  match hookOutcome (pre job) with
  | Some e => (Rejected e, persist job ERRORED (Some (err_message e)) w)
  | None =>
      let (effs, r) := _run job (invocations w) in
      let w := mkJobWorld (entity w) (S (invocations w)) (jobEffects w ++ effs) in
      match r, hookOutcome (after job) with
      | Some e, _ => (Rejected e, persist job ERRORED (Some (err_message e)) w)
      | None, Some e => (Rejected e, persist job ERRORED (Some (err_message e)) w)
      | None, None => (Resolved tt, persist job FINISHED None w)
      end
  end.

(** Modelled from the spec: [Job.retry(attempt, max)] (section 4.1): records
    the attempt count and moves the job to BACKOFF. *)
Definition Job_retry (job : Job) (attempt max : nat) (w : JobWorld) : JobWorld :=
  let e := currentEntity job w in
  mkJobWorld (Some (mkJobModel (job_name e) BACKOFF (Some (attempt, max)) (errorMessage e)))
    (invocations w) (jobEffects w).

(** Modelled from the spec: the non-recoverable failures of section 4.2 and
    section 7: the size-limit error. *)
Definition isNonRecoverable (e : JsError) : bool :=
  match e with
  | HashExceedsSizeError _ _ _ => true
  | _ => false
  end.

Definition sizeLimitPayload (job : Job) (e : JsError) : Payload :=
  match e with
  | HashExceedsSizeError _ s x => PSizeLimit (name job) s x
  | _ => PError (name job) (err_message e)
  end.

(** Modelled from the spec: the attempts of [JobsManager.run] (section
    4.2), [attempt] being the number of the current attempt and [left] the
    number of attempts that may follow it: a start notification, then
    [job.run()]; on success the completed notification; on a non-recoverable
    failure ERRORED, the size-limit notification and the error; on another
    failure BACKOFF and the retry warning when an attempt is left,
    otherwise ERRORED, the general failure notification and the error. *)
Fixpoint attempts (left : nat) (attempt total : nat) (job : Job) (w : JobWorld)
    : Settled unit * JobWorld :=
  let w := jobPerform (Broadcast I_HASH_START (PHash (name job))) w in
  match Job_run job w with
  | (Resolved _, w) =>
      (Resolved tt, jobPerform (Broadcast I_HASH_PINNED (PHash (name job))) w)
  | (Rejected e, w) =>
      if isNonRecoverable e then
        (Rejected e,
         jobPerform (Broadcast E_AGREEMENT_SIZE_LIMIT_EXCEEDED (sizeLimitPayload job e))
           (persist job ERRORED (Some (err_message e)) w))
      else
        match left with
        | S left' =>
            let w := Job_retry job attempt total w in
            let w := jobPerform
                       (Broadcast W_HASH_RETRY
                          (PRetry (name job) attempt total (err_message e))) w in
            attempts left' (S attempt) total job w
        | O =>
            (Rejected e,
             jobPerform (Broadcast E_GENERAL (PError (name job) (err_message e)))
               (persist job ERRORED (Some (err_message e)) w))
        end
  end.

(** Modelled from the spec: the manager of section 4.2 and its configured
    retry ceiling. *)
Record JobsManager : Type := mkJobsManager { retries : nat }.

(** Modelled from the spec: [JobsManager.run(job, options?)] (section 4.2):
    the configured ceiling unless overridden; the first attempt counts, so a
    ceiling of 3 allows three invocations of the body, as
    [test/unit/jobs.spec.ts] observes. *)
Definition JobsManager_run (mgr : JobsManager) (job : Job) (override : option nat)
    (w : JobWorld) : Settled unit * JobWorld :=
  let total :=
    match override with
    | Some n => n
    | None => retries mgr
    end in
  attempts (Nat.pred total) 1 total job w.

(* ------------------------------------------------------------------ *)
(** ** [src/providers/ipfs.ts]: the body of the pin job *)

(** The [ipfs-http-client] package: the [CID] constructor, which throws on
    a malformed hash, and the outcomes of the client's calls at each
    invocation of the body. *)
Record IpfsClient : Type := mkIpfsClient {
  newCID : string -> JsError + string;
  object_stat : nat -> string -> JsError + Z;  (* [stats.CumulativeSize] *)
  pin_add : nat -> string -> option JsError
}.

Definition ipfsLogger : string := "ipfs".

Section PinJob.

(** [bytesToMegabytes] of [src/utils.ts], a [BigNumber]. *)
Variable bytesToMegabytes : Z -> Q.

(** Rendering of a [BigNumber] in a template literal. *)
Variable showBigNumber : Q -> string.

Variable ipfs : IpfsClient.
Variable hash : string.
Variable expectedSize : Z.

(** [a.gt(b)]. *)
Definition gt (a b : Q) : bool := negb (Qle_bool a b).

Definition PinJob_run (i : nat) : list Effect * option JsError :=
  let hash := removeFirst "/ipfs/" hash in
  match newCID ipfs hash with
  | inl e => ([], Some e)
  | inr cid =>
      let log1 := Log ipfsLogger LVerbose (LogText ("(" ++ hash ++ ") Retrieving size of CID")) in
      let caught (e : JsError) : list Effect * option JsError :=
        if String.eqb (err_name e) "TimeoutError" then
          ([log1;
            Log ipfsLogger LError (LogText ("Fetching size of " ++ hash ++ " timed out!"))],
           Some (Error ("Fetching size of " ++ hash ++ " timed out!")))
        else ([log1], Some e) in
      match object_stat ipfs i cid with
      | inl e => caught e
      | inr cumulativeSize =>
          if gt (bytesToMegabytes cumulativeSize) (inject_Z expectedSize) then
            let log2 :=
              Log ipfsLogger LError
                (LogText ("The hash " ++ hash ++ " has cumulative size of "
                          ++ showBigNumber (bytesToMegabytes cumulativeSize)
                          ++ " megabytes while it was expected to have "
                          ++ ZtoString expectedSize ++ " megabytes.")) in
            let e := HashExceedsSizeError "The hash exceeds payed size!"
                       cumulativeSize expectedSize in
            if String.eqb (err_name e) "TimeoutError" then
              ([log1; log2;
                Log ipfsLogger LError (LogText ("Fetching size of " ++ hash ++ " timed out!"))],
               Some (Error ("Fetching size of " ++ hash ++ " timed out!")))
            else ([log1; log2], Some e)
          else
            ([log1; Log ipfsLogger LInfo (LogText ("Pinning hash: " ++ hash ++ " start"))],
             pin_add ipfs i cid)
      end
  end.

(** The pin job over that body; the swarm hooks are given by their
    outcome. *)
Definition PinJob (preHook afterHook : option (option JsError)) : Job :=
  mkJob hash preHook PinJob_run afterHook.

End PinJob.

(* ------------------------------------------------------------------ *)
(** ** Vocabulary of the properties *)

(** The event names an agreement id, and it is [id]. *)
Definition targets (id : string) (ev : BlockchainEvent) : bool :=
  match rv_agreementReference (returnValues ev) with
  | Some i => String.eqb i id
  | None => false
  end.

Definition isFundEvent (ev : BlockchainEvent) : bool :=
  includes
    ["AgreementFundsDeposited"; "AgreementFundsWithdrawn"; "AgreementFundsPayout"]
    (event ev).

(** What an event adds to the funds of agreement [id]: the amount of a
    deposit, the negated amount of a withdrawal or of a payout. *)
Definition fundDelta (id : string) (ev : BlockchainEvent) : Z :=
  if negb (targets id ev) then 0
  else if String.eqb (event ev) "AgreementFundsDeposited" then amount (returnValues ev)
  else if String.eqb (event ev) "AgreementFundsWithdrawn" then - amount (returnValues ev)
  else if String.eqb (event ev) "AgreementFundsPayout" then - amount (returnValues ev)
  else 0.

(** The last payout of agreement [id] after an event: the timestamp of the
    block of a payout, and otherwise what it was. *)
Definition payoutDate (e : Eth) (id : string) (d : Date) (ev : BlockchainEvent) : Date :=
  if targets id ev && String.eqb (event ev) "AgreementFundsPayout"
  then blockTimestamp e (blockNumber ev)
  else d.

(** The effects of a call: what it appended to the effects of [w]. *)
Definition effectsSince (w w' : World) : list Effect :=
  skipn (List.length (effects w)) (effects w').

Definition isUnpinRequest (e : Effect) : bool :=
  match e with
  | UnpinRequest _ => true
  | _ => false
  end.

Definition isBroadcast (e : Effect) : bool :=
  match e with
  | Broadcast _ _ => true
  | _ => false
  end.

Definition unpinRequests (l : list Effect) : list Effect := filter isUnpinRequest l.
Definition broadcasts (l : list Effect) : list Effect := filter isBroadcast l.

(** The world in which the provider manager answers the unpin request of
    a stop of [a]: the deactivation is saved, the request is made. *)
Definition atUnpin (a : Agreement) (w : World) : World :=
  snd ((Agreement_save (set_isActive false a) ;;;
        perform (UnpinRequest (dataReference a))) w).

Definition stoppedLog (id : option string) : Effect :=
  Log agreementLogger LInfo (LogText ("Agreement " ++ showOpt id ++ " was stopped.")).

(** The options of [getProcessor] that leave the error handler to its
    default, [errorHandler]. *)
Definition defaultBoundary (errorLogger : option string) (deps : option Options)
    : option GetProcessorOptions :=
  Some (mkGetProcessorOptions None errorLogger deps).

Definition logged (logger : string) (e : JsError) (w : World) : World :=
  mkWorld (agreements w) (effects w ++ [Log logger LError (LogErr e)]).

(** The events whose handlers look an Agreement up by the event's id. *)
Definition needsAgreement (ev : BlockchainEvent) : bool :=
  includes
    ["AgreementStopped"; "AgreementFundsDeposited"; "AgreementFundsWithdrawn";
     "AgreementFundsPayout"]
    (event ev).

Definition agreementKnown (ev : BlockchainEvent) (w : World) : bool :=
  match rv_agreementReference (returnValues ev) with
  | Some i =>
      match findByPk_rows i (agreements w) with
      | Some _ => true
      | None => false
      end
  | None => false
  end.

(** The event names this node's offer id as the provider, or it is an
    agreement event whose agreement id is in the Agreement table. *)
Definition isRelevant (offerId : string) (ev : BlockchainEvent) (w : World) : bool :=
  providerIs offerId ev
  || (startsWith (event ev) "Agreement" && agreementKnown ev w).

Definition gotLog (ev : BlockchainEvent) : Effect :=
  Log blockchainLogger LDebug
    (LogText ("Got " ++ event ev ++ " for provider "
              ++ showOpt (provider (returnValues ev)))).

Definition notRelatedLog (offerId : string) : Effect :=
  Log blockchainLogger LDebug (LogText ("Events not related to offer " ++ offerId)).

Definition withEffects (l : list Effect) (w : World) : World :=
  mkWorld (agreements w) (effects w ++ l).

(** [forcePrecache] of the optional options. *)
Definition forcePrecacheOf (options : option AppOptions) : option bool :=
  match options with
  | Some o => forcePrecache o
  | None => None
  end.

(** The last effect, if any. *)
Definition lastEffect (w : JobWorld) : option Effect := last (map Some (jobEffects w)) None.

(** A failure that the manager may retry. *)
Definition failsRecoverably (o : option JsError) : Prop :=
  exists e, o = Some e /\ isNonRecoverable e = false.

Section PipelineVocabulary.

Variable hexToAscii : string -> string.
Variable soliditySha3 : list string -> string.

(** The id [NewAgreement] derives for an event. *)
Definition referenceOf (ev : BlockchainEvent) : string :=
  soliditySha3 (agreementCreator (returnValues ev)
                :: rv_dataReference (returnValues ev) ++ [token (returnValues ev)]).

(** The values [NewAgreement] upserts for an event. *)
Definition dataOf (ev : BlockchainEvent) (e : Eth) : AgreementData :=
  let rv := returnValues ev in
  mkData (referenceOf ev) (decodeByteArray hexToAscii (rv_dataReference rv))
    (agreementCreator rv) (provider rv) (rv_size rv) (rv_billingPeriod rv)
    (rv_billingPrice rv) (rv_availableFunds rv) None (blockTimestamp e (blockNumber ev)).

(** The handler pipeline over the agreement handlers, with the chain
    handle in the handler options. *)
Definition agreementProcessor (m : option ProviderManager) (e : Eth)
    (errorLogger : option string) : Processor :=
  getProcessor [agreement hexToAscii soliditySha3]
    (Some (mkGetProcessorOptions None errorLogger (Some (mkOptions m (Some e))))).

End PipelineVocabulary.

(* ------------------------------------------------------------------ *)
(** ** Sample inputs *)

Definition sample_hexToAscii (s : string) : string := s.
Definition sample_soliditySha3 (l : list string) : string := String.concat ":" l.
Definition sample_eth : Eth := mkEth (fun b => b * 1000).

(** A manager whose requests all succeed, and one whose unpin fails. *)
Definition sample_manager : ProviderManager :=
  mkManager (fun _ _ _ _ => None) (fun _ _ => None).
Definition failing_manager : ProviderManager :=
  mkManager (fun _ _ _ _ => None)
    (fun _ _ => Some (ForeignError "HTTPError" None "context deadline exceeded")).

Definition sample_agreement : Agreement :=
  mkAgreement "0xA1" "/ipfs/QmData" "0xC0" (Some "0x0FFE2") 5 1 2 1000 None 0 true.

Definition sample_world : World := mkWorld [sample_agreement] [].

Definition sample_event (name : string) (bn : Z) (prov ref : option string) (amt : Z)
    : BlockchainEvent :=
  mkEvent name bn (mkReturnValues prov ref "0xC0" ["0x51"; "0x6d"] 5 1 2 "0x70" 100 amt).

Definition sample_NewAgreement : BlockchainEvent :=
  sample_event "NewAgreement" 7 (Some "0x0FFE2") None 0.
Definition sample_AgreementStopped : BlockchainEvent :=
  sample_event "AgreementStopped" 9 None (Some "0xA1") 0.
Definition sample_funds : list BlockchainEvent :=
  [ sample_event "AgreementFundsDeposited" 10 None (Some "0xA1") 100;
    sample_event "AgreementFundsWithdrawn" 11 None (Some "0xA1") 30;
    sample_event "AgreementFundsPayout" 12 None (Some "0xA1") 20 ].
Definition sample_Transfer : BlockchainEvent :=
  sample_event "Transfer" 13 None (Some "0xA1") 0.

(** The stubs of the 'should retry failed Job' and 'should ignore retries
    if NonRecoverableError' tests. *)
Definition retry_stub (i : nat) : list Effect * option JsError :=
  match i with
  | 0%nat => ([], Some (Error "testing"))
  | 1%nat => ([], Some (Error "testing"))
  | _ => ([], None)
  end.
Definition size_stub (i : nat) : list Effect * option JsError :=
  match i with
  | 0%nat => ([], Some (Error "testing1"))
  | 1%nat => ([], Some (HashExceedsSizeError "testing2" 10 9))
  | _ => ([], None)
  end.

(** An IPFS client that reports a cumulative size of 3 MiB. *)
Definition sample_ipfs : IpfsClient :=
  mkIpfsClient (fun h => inr h) (fun _ _ => inr 3145728) (fun _ _ => None).
Definition sample_bytesToMegabytes (b : Z) : Q := (b # 1048576)%Q.

(* ------------------------------------------------------------------ *)
(** ** [src/providers/ipfs.ts]: [IpfsProvider.unpin] *)

(** [unpin(hash)]: the hash is logged, its first [/ipfs/] is removed, the
    CID is built and [ipfs.pin.rm] is called with it; [pin_rm] is the
    outcome of that call. *)
Definition IpfsProvider_unpin (ipfs : IpfsClient) (pin_rm : string -> option JsError)
    (hash : string) : list Effect * option JsError :=
  let log := Log ipfsLogger LInfo (LogText ("Unpinning hash: " ++ hash)) in
  let hash := removeFirst "/ipfs/" hash in
  match newCID ipfs hash with
  | inl e => ([log], Some e)
  | inr cid => ([log], pin_rm cid)
  end.

(* ------------------------------------------------------------------ *)
(** ** [src/cli/agreements.ts]: [queryAgreement] *)

(** An Agreement with the jobs assigned to it. *)
Record AgreementWithJobs : Type := mkAgreementWithJobs {
  awj_agreement : Agreement;
  jobs : list JobModel
}.

(** [!filterStatus]: no filter, or the empty string. *)
Definition noFilter (filterStatus : option string) : bool :=
  match filterStatus with
  | Some f => String.eqb f ""
  | None => true
  end.

(** [filterStatus === value]. *)
Definition filterIs (filterStatus : option string) (value : string) : bool :=
  match filterStatus with
  | Some f => String.eqb f value
  | None => false
  end.

Section QueryAgreement.

(** The [hasSufficientFunds] getter of the Agreement model. *)
Variable hasSufficientFunds : Agreement -> bool.

(** [queryAgreement(filterStatus)] over the rows of [Agreement.findAll()]
    and the rows of the Job table in the order of the query (latest finish
    first): the jobs are those named by a data reference of the agreements;
    each agreement is given its jobs and, as [isActive], its
    [hasSufficientFunds], and is kept according to the filter. *)
Definition queryAgreement (filterStatus : option string) (agreements : list Agreement)
    (jobsByFinishDesc : list JobModel) : list AgreementWithJobs :=
  let jobs :=
    filter (fun j => includes (map dataReference agreements) (job_name j))
      jobsByFinishDesc in
  fold_left
    (fun acc agreement =>
       let agreement :=
         mkAgreementWithJobs
           (set_isActive (hasSufficientFunds agreement) agreement)
           (filter (fun j => String.eqb (job_name j) (dataReference agreement)) jobs) in
       (acc ++
        (if (filterIs filterStatus "active" && isActive (awj_agreement agreement))
            || (filterIs filterStatus "inactive"
                && negb (isActive (awj_agreement agreement)))
            || noFilter filterStatus
         then [agreement]
         else []))%list)
    agreements [].

End QueryAgreement.

(* ------------------------------------------------------------------ *)
(** ** Vocabulary of the further properties *)

Fixpoint containsNul (s : string) : bool :=
  match s with
  | String c rest => Ascii.eqb c zero || containsNul rest
  | EmptyString => false
  end.

Fixpoint allNul (s : string) : bool :=
  match s with
  | String c rest => Ascii.eqb c zero && allNul rest
  | EmptyString => true
  end.

Definition startsWithWhiteSpace (s : string) : bool :=
  match s with
  | String c _ => isWhiteSpace c
  | EmptyString => false
  end.

Fixpoint endsWithWhiteSpace (s : string) : bool :=
  match s with
  | String c EmptyString => isWhiteSpace c
  | String _ rest => endsWithWhiteSpace rest
  | EmptyString => false
  end.

(** The handlers of a list that name the event. *)
Definition listed (hs : list EventsHandler) (ev : BlockchainEvent) : list EventsHandler :=
  filter (fun handler => includes (events handler) (event ev)) hs.

(** Every handler of a list run on the event, one after the other,
    whatever each one settles to. *)
Definition runAll (hs : list EventsHandler) (deps : option Options)
    (ev : BlockchainEvent) (w : World) : World :=
  fold_left (fun w h => snd (process h ev deps w)) hs w.

Definition isPinRequest (e : Effect) : bool :=
  match e with
  | PinRequest _ _ _ => true
  | _ => false
  end.

Definition pinRequests (l : list Effect) : list Effect := filter isPinRequest l.

(** A request to the content store or a notification. *)
Definition isRequestOrBroadcast (e : Effect) : bool :=
  isPinRequest e || isUnpinRequest e || isBroadcast e.

(** Every Agreement of the table belongs to the offer. *)
Definition allOfOffer (oid : string) (rows : list Agreement) : Prop :=
  Forall (fun a => offerId a = Some oid) rows.

Section HandlerVocabulary.

Variable hexToAscii : string -> string.
Variable soliditySha3 : list string -> string.

(** The id of the Agreement an agreement event is about: the derived id
    for a creation, the event's [agreementReference] otherwise. *)
Definition touched (ev : BlockchainEvent) : option string :=
  if String.eqb "NewAgreement" (event ev)
  then Some (referenceOf soliditySha3 ev)
  else rv_agreementReference (returnValues ev).

(** The world in which the provider manager answers the pin request of a
    creation: the Agreement is upserted, the creation is logged, the
    request is made. *)
Definition atPin (ev : BlockchainEvent) (e : Eth) (w : World) : World :=
  let d := dataOf hexToAscii soliditySha3 ev e in
  mkWorld (upsertRows d (agreements w))
    (effects w ++
     [DbUpsert (d_agreementReference d);
      Log agreementLogger LInfo
        (LogText ("Created new Agreement with ID " ++ d_agreementReference d
                  ++ " for offer " ++ showOpt (provider (returnValues ev))));
      PinRequest (d_dataReference d) (d_size d) (Some (d_agreementReference d))]).

End HandlerVocabulary.

(** The request of [precache] for an Agreement with sufficient funds: no
    agreement reference is passed. *)
Definition repinRequest (a : Agreement) : Effect :=
  PinRequest (dataReference a) (size a) None.

Definition populatingLog : Effect :=
  Log precacheLogger LVerbose (LogText "Populating database").

Definition pinningLog : Effect :=
  Log precacheLogger LInfo (LogText "Pinning valid Agreements").

(** The entry [queryAgreement] builds for an Agreement: its status is its
    [hasSufficientFunds], its jobs are the rows of the Job table with its
    data reference as name. *)
Definition entryOf (hasSufficientFunds : Agreement -> bool)
    (jobTable : list JobModel) (a : Agreement) : AgreementWithJobs :=
  mkAgreementWithJobs (set_isActive (hasSufficientFunds a) a)
    (filter (fun j => String.eqb (job_name j) (dataReference a)) jobTable).

(** Further sample inputs: a manager whose pins fail, a reference padded
    with null characters, an IPFS client whose size lookup times out, a stub
    that always fails, a small Job table. *)
Definition pin_failing_manager : ProviderManager :=
  mkManager (fun _ _ _ _ => Some (Error "pin failed")) (fun _ _ => None).

Definition sample_padding : string := String zero (String zero EmptyString).

Definition timeout_ipfs : IpfsClient :=
  mkIpfsClient (fun h => inr h)
    (fun _ _ => inl (ForeignError "TimeoutError" None "request timed out"))
    (fun _ _ => None).

Definition failing_stub (i : nat) : list Effect * option JsError :=
  ([], Some (Error "testing")).

Definition sample_jobs : list JobModel :=
  [ mkJobModel "/ipfs/QmData" FINISHED None None;
    mkJobModel "/ipfs/QmOther" ERRORED (Some (2%nat, 3%nat)) (Some "testing") ].

(** Unfolding of the promise combinators. *)
Ltac async :=
  cbv beta iota zeta delta
    [await tryCatch resolve throw perform getWorld setAgreements
     logger_log broadcast settle manager_pin manager_unpin
     Agreement_upsert Agreement_findByPk Agreement_save Agreement_findAll
     getBlockDate] in *;
  simpl in *.

(* ================================================================== *)
(** * Properties *)

(* ------------------------------------------------------------------ *)
(** ** The Agreement table *)

Lemma hasPk_true (id : string) (a : Agreement) :
  hasPk id a = true <-> agreementReference a = id.
Proof. unfold hasPk. apply String.eqb_eq. Qed.

Lemma hasPk_false (id : string) (a : Agreement) :
  hasPk id a = false <-> agreementReference a <> id.
Proof. unfold hasPk. apply String.eqb_neq. Qed.

Lemma updateRows_keys (a : Agreement) (rows : list Agreement) :
  map agreementReference (updateRows a rows) = map agreementReference rows.
Proof.
  unfold updateRows. induction rows as [|r rows IH]; simpl; [reflexivity|].
  rewrite IH. destruct (hasPk (agreementReference a) r) eqn:E; [|reflexivity].
  apply hasPk_true in E. now rewrite E.
Qed.

Lemma countPk_keys (id : string) (rows : list Agreement) :
  countPk id rows = count_occ string_dec (map agreementReference rows) id.
Proof.
  unfold countPk. induction rows as [|r rows IH]; simpl; [reflexivity|].
  destruct (hasPk id r) eqn:E.
  - apply hasPk_true in E. destruct (string_dec (agreementReference r) id); [|contradiction].
    simpl. now rewrite IH.
  - apply hasPk_false in E. destruct (string_dec (agreementReference r) id); [contradiction|].
    exact IH.
Qed.

Lemma countPk_app (id : string) (rows rows' : list Agreement) :
  countPk id (rows ++ rows') = (countPk id rows + countPk id rows')%nat.
Proof. unfold countPk. now rewrite filter_app, length_app. Qed.

Lemma findByPk_rows_None (id : string) (rows : list Agreement) :
  findByPk_rows id rows = None <-> countPk id rows = 0%nat.
Proof.
  unfold findByPk_rows, countPk. induction rows as [|r rows IH]; simpl; [tauto|].
  destruct (hasPk id r); simpl; [split; discriminate | exact IH].
Qed.

Lemma findByPk_rows_Some (id : string) (rows : list Agreement) (a : Agreement) :
  findByPk_rows id rows = Some a -> agreementReference a = id /\ In a rows.
Proof.
  unfold findByPk_rows. intros H. apply find_some in H. destruct H as [Hin Hpk].
  apply hasPk_true in Hpk. now split.
Qed.

Lemma pkUnique_countPk (id : string) (rows : list Agreement) :
  pkUnique rows -> (countPk id rows <= 1)%nat.
Proof.
  unfold pkUnique. intros H. rewrite countPk_keys.
  now apply (proj1 (NoDup_count_occ string_dec _)).
Qed.

Lemma pkUnique_found (id : string) (rows : list Agreement) (a : Agreement) :
  pkUnique rows -> findByPk_rows id rows = Some a -> countPk id rows = 1%nat.
Proof.
  intros Hu Hf. pose proof (pkUnique_countPk id rows Hu) as Hle.
  destruct (countPk id rows) as [|n] eqn:E.
  - apply findByPk_rows_None in E. congruence.
  - lia.
Qed.

Lemma findByPk_updateRows_same (a : Agreement) (rows : list Agreement) (old : Agreement) :
  findByPk_rows (agreementReference a) rows = Some old ->
  findByPk_rows (agreementReference a) (updateRows a rows) = Some a.
Proof.
  unfold findByPk_rows, updateRows.
  induction rows as [|r rows IH]; simpl; [discriminate|].
  destruct (hasPk (agreementReference a) r) eqn:E.
  - intros _. assert (H : hasPk (agreementReference a) a = true) by now apply hasPk_true.
    now rewrite H.
  - rewrite E. exact IH.
Qed.

Lemma findByPk_updateRows_other (id : string) (a : Agreement) (rows : list Agreement) :
  agreementReference a <> id ->
  findByPk_rows id (updateRows a rows) = findByPk_rows id rows.
Proof.
  intros Hne. unfold findByPk_rows, updateRows.
  induction rows as [|r rows IH]; simpl; [reflexivity|].
  destruct (hasPk (agreementReference a) r) eqn:E.
  - apply hasPk_true in E.
    assert (H1 : hasPk id a = false) by now apply hasPk_false.
    assert (H2 : hasPk id r = false) by (apply hasPk_false; congruence).
    now rewrite H1, H2.
  - destruct (hasPk id r); [reflexivity | exact IH].
Qed.

Lemma findByPk_rows_app (id : string) (rows rows' : list Agreement) :
  findByPk_rows id rows = None ->
  findByPk_rows id (rows ++ rows') = findByPk_rows id rows'.
Proof.
  unfold findByPk_rows. induction rows as [|r rows IH]; simpl; [reflexivity|].
  destruct (hasPk id r); [discriminate | exact IH].
Qed.

Lemma pkUnique_updateRows (a : Agreement) (rows : list Agreement) :
  pkUnique rows -> pkUnique (updateRows a rows).
Proof. unfold pkUnique. now rewrite updateRows_keys. Qed.

Lemma agreementReference_withData (d : AgreementData) (b : bool) :
  agreementReference (withData d b) = d_agreementReference d.
Proof. reflexivity. Qed.

Lemma agreementReference_upsertInstance (d : AgreementData) (rows : list Agreement) :
  agreementReference (upsertInstance d rows) = d_agreementReference d.
Proof. unfold upsertInstance. now destruct (findByPk_rows _ rows). Qed.

(** An upsert leaves exactly one row with the key in a table that respects
    the primary key. *)
Lemma upsertRows_countPk (d : AgreementData) (rows : list Agreement) :
  pkUnique rows -> countPk (d_agreementReference d) (upsertRows d rows) = 1%nat.
Proof.
  intros Hu. unfold upsertRows.
  destruct (findByPk_rows (d_agreementReference d) rows) as [old|] eqn:E.
  - rewrite countPk_keys, updateRows_keys, <- countPk_keys.
    eapply pkUnique_found; eauto.
  - rewrite countPk_app. apply findByPk_rows_None in E. rewrite E.
    unfold countPk. simpl.
    assert (H : hasPk (d_agreementReference d) (upsertInstance d rows) = true).
    { apply hasPk_true. apply agreementReference_upsertInstance. }
    now rewrite H.
Qed.

Lemma upsertRows_pkUnique (d : AgreementData) (rows : list Agreement) :
  pkUnique rows -> pkUnique (upsertRows d rows).
Proof.
  intros Hu. unfold upsertRows.
  destruct (findByPk_rows (d_agreementReference d) rows) as [old|] eqn:E.
  - now apply pkUnique_updateRows.
  - unfold pkUnique in *. rewrite map_app. simpl.
    apply NoDup_count_occ with (decA := string_dec). intros x.
    rewrite count_occ_app. simpl.
    pose proof (proj1 (NoDup_count_occ string_dec _) Hu x) as Hx.
    destruct (string_dec (agreementReference (upsertInstance d rows)) x) as [e|]; [|lia].
    rewrite agreementReference_upsertInstance in e. subst x.
    apply findByPk_rows_None in E. rewrite countPk_keys in E. lia.
Qed.

Lemma upsertRows_found (d : AgreementData) (rows : list Agreement) :
  findByPk_rows (d_agreementReference d) (upsertRows d rows)
  = Some (upsertInstance d rows).
Proof.
  unfold upsertRows.
  destruct (findByPk_rows (d_agreementReference d) rows) as [old|] eqn:E.
  - rewrite <- (agreementReference_upsertInstance d rows).
    eapply findByPk_updateRows_same.
    rewrite agreementReference_upsertInstance. exact E.
  - rewrite findByPk_rows_app by exact E. unfold findByPk_rows. simpl.
    assert (H : hasPk (d_agreementReference d) (upsertInstance d rows) = true).
    { apply hasPk_true. apply agreementReference_upsertInstance. }
    now rewrite H.
Qed.

(** A second upsert with the key keeps the keys of the table as they are. *)
Lemma upsertRows_replay_keys (d d' : AgreementData) (rows : list Agreement) :
  d_agreementReference d' = d_agreementReference d ->
  map agreementReference (upsertRows d' (upsertRows d rows))
  = map agreementReference (upsertRows d rows).
Proof.
  intros Hk. unfold upsertRows at 1. rewrite Hk, upsertRows_found.
  apply updateRows_keys.
Qed.

(* ------------------------------------------------------------------ *)
(** ** The agreement handlers *)

Section AgreementHandlers.

Variable hexToAscii : string -> string.
Variable soliditySha3 : list string -> string.

Lemma NewAgreement_agreements (ev : BlockchainEvent) (m : option ProviderManager)
    (e : Eth) (w : World) :
  agreements (snd (NewAgreement hexToAscii soliditySha3 ev (mkOptions m (Some e)) w))
  = upsertRows (dataOf hexToAscii soliditySha3 ev e) (agreements w).
Proof.
  unfold NewAgreement. async. destruct m as [m|]; simpl; [|reflexivity].
  match goal with |- context [pinOutcome m ?w ?h ?s ?r] =>
    destruct (pinOutcome m w h s r) end; reflexivity.
Qed.

(** C1. Idempotent creation: in a table that respects its primary key,
    processing a NewAgreement event and then processing it again (the
    handler options carry the chain handle; with or without a provider
    manager, and with any outcome of the pin requests) leaves exactly one
    Agreement record whose
    id is the soliditySha3 hash of the consumer address, the data-reference
    chunks and the payment token: the replay neither adds a record nor
    changes the ids of the table, and a table that did not know the id has
    grown by one record only. *)
Theorem NewAgreement_replay_idempotent
    (ev : BlockchainEvent) (m1 m2 : option ProviderManager) (e1 e2 : Eth) (w : World) :
  pkUnique (agreements w) ->
  let id := soliditySha3 (agreementCreator (returnValues ev)
                          :: rv_dataReference (returnValues ev)
                          ++ [token (returnValues ev)]) in
  let w1 := snd (NewAgreement hexToAscii soliditySha3 ev (mkOptions m1 (Some e1)) w) in
  let w2 := snd (NewAgreement hexToAscii soliditySha3 ev (mkOptions m2 (Some e2)) w1) in
  countPk id (agreements w1) = 1%nat
  /\ countPk id (agreements w2) = 1%nat
  /\ (exists a, findByPk_rows id (agreements w2) = Some a /\ agreementReference a = id)
  /\ map agreementReference (agreements w2) = map agreementReference (agreements w1)
  /\ List.length (agreements w2) = List.length (agreements w1)
  /\ (findByPk_rows id (agreements w) = None ->
      List.length (agreements w2) = S (List.length (agreements w)))
  /\ pkUnique (agreements w2).
Proof.
  intros Hu id w1 w2. subst w1 w2.
  rewrite !NewAgreement_agreements.
  change id with (d_agreementReference (dataOf hexToAscii soliditySha3 ev e1)).
  assert (Hk : d_agreementReference (dataOf hexToAscii soliditySha3 ev e2) = d_agreementReference (dataOf hexToAscii soliditySha3 ev e1))
    by reflexivity.
  pose proof (upsertRows_pkUnique (dataOf hexToAscii soliditySha3 ev e1) _ Hu) as Hu1.
  pose proof (upsertRows_replay_keys (dataOf hexToAscii soliditySha3 ev e1) (dataOf hexToAscii soliditySha3 ev e2) (agreements w) Hk) as Hkeys.
  repeat split.
  - now apply upsertRows_countPk.
  - rewrite <- Hk. now apply upsertRows_countPk.
  - exists (upsertInstance (dataOf hexToAscii soliditySha3 ev e2) (upsertRows (dataOf hexToAscii soliditySha3 ev e1) (agreements w))).
    split.
    + rewrite <- Hk. apply upsertRows_found.
    + now rewrite agreementReference_upsertInstance.
  - exact Hkeys.
  - rewrite <- (length_map agreementReference), Hkeys. apply length_map.
  - intros Hnone.
    rewrite <- (length_map agreementReference), Hkeys, length_map.
    unfold upsertRows. rewrite Hnone, length_app. simpl. lia.
  - now apply upsertRows_pkUnique.
Qed.

(** *** Fund mutations *)

Lemma findByPk_after_update (id j : string) (a b a' : Agreement) (rows : list Agreement) :
  findByPk_rows id rows = Some a ->
  findByPk_rows j rows = Some b ->
  agreementReference a' = agreementReference b ->
  findByPk_rows id (updateRows a' rows) = Some (if String.eqb j id then a' else a)
  /\ (String.eqb j id = true -> b = a).
Proof.
  intros Hf Hj Hk. destruct (findByPk_rows_Some _ _ _ Hj) as [Hb _].
  destruct (String.eqb j id) eqn:E.
  - apply String.eqb_eq in E. rewrite E in Hb, Hj. split; [|intros _; congruence].
    rewrite <- Hb, <- Hk. apply findByPk_updateRows_same with (old := a).
    now rewrite Hk, Hb.
  - apply String.eqb_neq in E. split; [|discriminate].
    rewrite findByPk_updateRows_other; [exact Hf | congruence].
Qed.

Lemma findByPk_absent_other (id j : string) (a : Agreement) (rows : list Agreement) :
  findByPk_rows id rows = Some a ->
  findByPk_rows j rows = None ->
  String.eqb j id = false.
Proof.
  intros Hf Hj. apply String.eqb_neq. intros ->. congruence.
Qed.

(** One fund event moves the funds of [id] by its delta. *)
Lemma fund_event_step (m : option ProviderManager) (e : Eth) (lg : option string)
    (id : string) (a : Agreement) (ev : BlockchainEvent) (w : World) :
  findByPk_rows id (agreements w) = Some a ->
  isFundEvent ev = true ->
  exists a',
    findByPk_rows id (agreements (snd (agreementProcessor hexToAscii soliditySha3 m e lg ev w))) = Some a'
    /\ availableFunds a' = availableFunds a + fundDelta id ev
    /\ lastPayout a' = payoutDate e id (lastPayout a) ev.
Proof.
  intros Hf Hev. destruct ev as [name bn rv]. unfold isFundEvent, includes in Hev.
  simpl in Hev. unfold fundDelta, payoutDate, targets. simpl.
  assert (Hname : name = "AgreementFundsDeposited" \/ name = "AgreementFundsWithdrawn"
                  \/ name = "AgreementFundsPayout").
  { rewrite !orb_true_iff, !String.eqb_eq in Hev. intuition congruence. }
  clear Hev.
  unfold agreementProcessor, getProcessor, getProcessor_processor, getProcessor_logger,
    errorHandler, agreement, buildHandler.
  destruct Hname as [-> | [-> | ->]]; simpl;
    unfold AgreementFundsDeposited, AgreementFundsWithdrawn, AgreementFundsPayout;
    async;
    (destruct (rv_agreementReference rv) as [j|]; simpl;
     [ destruct (findByPk_rows j (agreements w)) as [b|] eqn:Hj; simpl;
       [ match goal with
         | |- context [updateRows ?a' _] =>
             destruct (findByPk_after_update id j a b a' (agreements w) Hf Hj eq_refl)
               as [Hupd Hsame];
             rewrite Hupd; clear Hupd
         end;
         destruct (String.eqb j id); simpl;
         [ rewrite <- (Hsame eq_refl); eexists; split; [reflexivity|];
           simpl; split; [lia | reflexivity]
         | exists a; split; [reflexivity|]; split; [lia | reflexivity] ]
       | rewrite (findByPk_absent_other id j a _ Hf Hj); simpl;
         exists a; split; [exact Hf|]; split; [lia | reflexivity] ]
     | exists a; split; [exact Hf|]; split; [lia | reflexivity] ]).
Qed.

(** C2. Fund-mutation order preservation: whatever sequence of
    AgreementFundsDeposited, AgreementFundsWithdrawn and AgreementFundsPayout
    events the handler pipeline (getProcessor over the agreement handlers,
    the chain handle in the handler options) processes one after the other,
    the
    availableFunds of an Agreement of the table end as its initial funds
    plus the amount of each deposit and minus the amount of each withdrawal
    and payout that name it, applied in that order, and its lastPayout is the
    timestamp of the block of the last such payout (the initial one if there
    is none). *)
Theorem funds_follow_events_in_order (m : option ProviderManager) (e : Eth)
    (lg : option string) (id : string) (evs : list BlockchainEvent) :
  forall (a : Agreement) (w : World),
    findByPk_rows id (agreements w) = Some a ->
    Forall (fun ev => isFundEvent ev = true) evs ->
    exists a',
      findByPk_rows id (agreements (dispatchAll (agreementProcessor hexToAscii soliditySha3 m e lg) evs w))
      = Some a'
      /\ availableFunds a'
         = fold_left (fun funds ev => funds + fundDelta id ev) evs (availableFunds a)
      /\ lastPayout a' = fold_left (payoutDate e id) evs (lastPayout a).
Proof.
  induction evs as [|ev evs IH]; intros a w Hf Hall.
  - exists a. simpl. auto.
  - inversion Hall as [|? ? Hev Hrest]; subst.
    destruct (fund_event_step m e lg id a ev w Hf Hev) as [a1 [Hf1 [Hfunds Hdate]]].
    destruct (IH a1 _ Hf1 Hrest) as [a' [Hf' [Hfunds' Hdate']]].
    exists a'. simpl. rewrite <- Hfunds, <- Hdate. auto.
Qed.


(** *** Stopping an agreement *)

Lemma effectsSince_app (w : World) (rows : list Agreement) (l : list Effect) :
  effectsSince w (mkWorld rows (effects w ++ l)) = l.
Proof.
  unfold effectsSince. simpl. rewrite skipn_app, skipn_all, Nat.sub_diag. reflexivity.
Qed.

(** What the handler does to an agreement it finds. *)
Lemma AgreementStopped_found (ev : BlockchainEvent) (o : Options) (w : World)
    (i : string) (a : Agreement) :
  rv_agreementReference (returnValues ev) = Some i ->
  findByPk_rows i (agreements w) = Some a ->
  let rows := updateRows (set_isActive false a) (agreements w) in
  AgreementStopped ev o w =
  match manager o with
  | None =>
      (Resolved tt,
       mkWorld rows (effects w ++ [DbSave (agreementReference a); stoppedLog (Some i)]))
  | Some m =>
      match unpinOutcome m (atUnpin a w) (dataReference a) with
      | Some e =>
          if hasNotPinnedCode e then
            (Resolved tt,
             mkWorld rows
               (effects w ++
                [DbSave (agreementReference a); UnpinRequest (dataReference a);
                 Broadcast I_AGREEMENT_STOPPED (PAgreement (agreementReference a));
                 stoppedLog (Some i)]))
          else
            (Rejected e,
             mkWorld rows
               (effects w ++
                [DbSave (agreementReference a); UnpinRequest (dataReference a)]))
      | None =>
          (Resolved tt,
           mkWorld rows
             (effects w ++
              [DbSave (agreementReference a); UnpinRequest (dataReference a);
               Broadcast I_AGREEMENT_STOPPED (PAgreement (agreementReference a));
               stoppedLog (Some i)]))
      end
  end.
Proof.
  intros Hid Hf rows. subst rows. unfold AgreementStopped, atUnpin, stoppedLog.
  rewrite Hid. async. rewrite Hf. simpl.
  destruct (manager o) as [m|]; simpl.
  - destruct (unpinOutcome m _ (dataReference a)) as [e|]; simpl.
    + destruct (hasNotPinnedCode e); simpl; rewrite <- ?app_assoc; reflexivity.
    + rewrite <- !app_assoc. reflexivity.
  - rewrite <- !app_assoc. reflexivity.
Qed.

Lemma AgreementStopped_missing (ev : BlockchainEvent) (o : Options) (w : World) :
  match rv_agreementReference (returnValues ev) with
  | Some i => findByPk_rows i (agreements w)
  | None => None
  end = None ->
  AgreementStopped ev o w
  = (Rejected (notFound (rv_agreementReference (returnValues ev)) "AgreementStopped"), w).
Proof.
  intros H. unfold AgreementStopped. async. now rewrite H.
Qed.

Lemma stopped_row_found (i : string) (a : Agreement) (rows : list Agreement) :
  findByPk_rows i rows = Some a ->
  findByPk_rows i (updateRows (set_isActive false a) rows) = Some (set_isActive false a).
Proof.
  intros Hf. destruct (findByPk_rows_Some _ _ _ Hf) as [Hk _].
  rewrite <- Hk in *.
  apply (findByPk_updateRows_same (set_isActive false a) rows a Hf).
Qed.

(** C5 (amended). Stop semantics: the AgreementStopped handler fails with
    the not-found error, changing nothing, when no Agreement has the event's
    id. Otherwise it sets isActive to false and saves the Agreement. When
    the handler options carry a provider manager it then issues exactly one
    unpin request, for the agreement's data reference: a success and an
    error with the NotPinnedError code both end in the agreement-stopped
    broadcast and a resolved handler, any other error is raised again. When
    the options carry no manager, there is no unpin request and no
    broadcast, and the handler resolves. *)
Theorem AgreementStopped_stop_semantics (ev : BlockchainEvent) (o : Options) (w : World) :
  let id := rv_agreementReference (returnValues ev) in
  let r := AgreementStopped ev o w in
  let done := effectsSince w (snd r) in
  match match id with
        | Some i => findByPk_rows i (agreements w)
        | None => None
        end with
  | None =>
      r = (Rejected (EventError ("Agreement with ID " ++ showOpt id ++ " was not found!")
                       "AgreementStopped"), w)
  | Some a =>
      (exists a', Agreement_findByPk id (snd r) = (Resolved (Some a'), snd r)
                  /\ isActive a' = false
                  /\ a' = set_isActive false a)
      /\ match manager o with
         | Some m =>
             unpinRequests done = [UnpinRequest (dataReference a)]
             /\ match unpinOutcome m (atUnpin a w) (dataReference a) with
                | None =>
                    fst r = Resolved tt
                    /\ broadcasts done
                       = [Broadcast I_AGREEMENT_STOPPED (PAgreement (agreementReference a))]
                | Some e =>
                    if hasNotPinnedCode e then
                      fst r = Resolved tt
                      /\ broadcasts done
                         = [Broadcast I_AGREEMENT_STOPPED
                              (PAgreement (agreementReference a))]
                    else fst r = Rejected e /\ broadcasts done = []
                end
         | None =>
             fst r = Resolved tt /\ unpinRequests done = [] /\ broadcasts done = []
         end
  end.
Proof.
  intros id r done. subst id r done.
  destruct (rv_agreementReference (returnValues ev)) as [i|] eqn:Hid.
  - destruct (findByPk_rows i (agreements w)) as [a|] eqn:Hf.
    + rewrite (AgreementStopped_found ev o w i a Hid Hf).
      pose proof (stopped_row_found i a _ Hf) as Hrow.
      destruct (manager o) as [m|].
      * destruct (unpinOutcome m (atUnpin a w) (dataReference a)) as [e|];
          [destruct (hasNotPinnedCode e)|];
          simpl; rewrite effectsSince_app; async; rewrite Hrow;
          (split; [eexists; repeat split | repeat split]).
      * simpl. rewrite effectsSince_app. async. rewrite Hrow.
        split; [eexists; repeat split | repeat split].
    + rewrite <- Hid. apply AgreementStopped_missing. now rewrite Hid.
  - rewrite <- Hid. apply AgreementStopped_missing. now rewrite Hid.
Qed.

(** C10. In the AgreementStopped handler the deactivation is saved before
    the unpin is attempted: when the unpin of a found Agreement fails with
    an error whose code is not that of NotPinnedError, the handler raises
    that error, the Agreement is deactivated in the table all the same (the
    stored row has isActive false, whatever the flag was before, and its
    other columns as they were), it was so already when the unpin request
    was answered, the save comes before the unpin request among the
    effects, and nothing is broadcast. *)
Theorem AgreementStopped_unpin_failure_keeps_deactivation
    (ev : BlockchainEvent) (o : Options) (m : ProviderManager) (w : World)
    (i : string) (a : Agreement) (e : JsError) :
  rv_agreementReference (returnValues ev) = Some i ->
  findByPk_rows i (agreements w) = Some a ->
  manager o = Some m ->
  unpinOutcome m (atUnpin a w) (dataReference a) = Some e ->
  hasNotPinnedCode e = false ->
  let r := AgreementStopped ev o w in
  fst r = Rejected e
  /\ (exists a', findByPk_rows i (agreements (snd r)) = Some a'
                 /\ isActive a' = false
                 /\ a' = set_isActive false a)
  /\ (exists a', findByPk_rows i (agreements (atUnpin a w)) = Some a'
                 /\ isActive a' = false
                 /\ a' = set_isActive false a)
  /\ effectsSince w (snd r)
     = [DbSave (agreementReference a); UnpinRequest (dataReference a)]
  /\ broadcasts (effectsSince w (snd r)) = [].
Proof.
  intros Hid Hf Hm Hout Hcode r. subst r.
  rewrite (AgreementStopped_found ev o w i a Hid Hf), Hm, Hout, Hcode.
  simpl. rewrite effectsSince_app.
  pose proof (stopped_row_found i a _ Hf) as Hrow.
  split; [reflexivity|].
  split; [exists (set_isActive false a); split; [exact Hrow | split; reflexivity]|].
  split; [exists (set_isActive false a); split; [exact Hrow | split; reflexivity]|].
  split; reflexivity.
Qed.

(** *** The error boundary *)

Lemma errorHandler_resolves (fn : Processor) (logger : string)
    (ev : BlockchainEvent) (w : World) :
  errorHandler fn logger ev w
  = match fn ev w with
    | (Resolved _, w') => (Resolved tt, w')
    | (Rejected e, w') => (Resolved tt, logged logger e w')
    end.
Proof.
  unfold errorHandler, tryCatch, logger_log, perform, logged.
  destruct (fn ev w) as [[[]|e] w']; reflexivity.
Qed.

Lemma errorHandler_fst (fn : Processor) (logger : string)
    (ev : BlockchainEvent) (w : World) :
  fst (errorHandler fn logger ev w) = Resolved tt.
Proof.
  rewrite errorHandler_resolves. destruct (fn ev w) as [[[]|e] w']; reflexivity.
Qed.

(** A loop over a processor that never rejects reaches every event. *)
Lemma drainQueue_dispatchAll (P : Processor) :
  (forall ev w, fst (P ev w) = Resolved tt) ->
  forall evs w, drainQueue P evs w = (Resolved tt, dispatchAll P evs w).
Proof.
  intros HP. induction evs as [|ev evs IH]; intros w; simpl; [reflexivity|].
  unfold await. specialize (HP ev w). destruct (P ev w) as [r w']. simpl in *.
  subst r. apply IH.
Qed.

Lemma buildHandler_unknown (hs : HandlersObject) (names : list string)
    (ev : BlockchainEvent) (o : option Options) (w : World) :
  isValidEvent (event ev) hs = false ->
  process (buildHandler hs names) ev o w
  = (Rejected (Error ("Unknown event " ++ event ev)), w).
Proof.
  intros H. unfold buildHandler. simpl. now rewrite H.
Qed.

Lemma agreement_not_found (ev : BlockchainEvent) (o : option Options) (w : World) :
  needsAgreement ev = true ->
  agreementKnown ev w = false ->
  exists tag,
    process (agreement hexToAscii soliditySha3) ev o w
    = (Rejected (EventError ("Agreement with ID "
                             ++ showOpt (rv_agreementReference (returnValues ev))
                             ++ " was not found!") tag), w).
Proof.
  intros Hn Hk. destruct ev as [name bn rv]. unfold needsAgreement, includes in Hn.
  unfold agreementKnown in Hk. simpl in *.
  assert (Hfind : match rv_agreementReference rv with
                  | Some i => findByPk_rows i (agreements w)
                  | None => None
                  end = None).
  { destruct (rv_agreementReference rv) as [i|]; [|reflexivity].
    destruct (findByPk_rows i (agreements w)); [discriminate | reflexivity]. }
  rewrite !orb_true_iff, !String.eqb_eq in Hn.
  unfold agreement, buildHandler.
  destruct Hn as [-> | [-> | [-> | [-> | Hn]]]]; try discriminate Hn; simpl;
    unfold AgreementStopped, AgreementFundsDeposited, AgreementFundsWithdrawn,
      AgreementFundsPayout, notFound;
    async; rewrite Hfind; eexists; reflexivity.
Qed.

Lemma getProcessor_processor_single (h : EventsHandler)
    (o : option GetProcessorOptions) (ev : BlockchainEvent) (w : World) (e : JsError) :
  includes (events h) (event ev) = true ->
  process h ev (match o with
                | Some o => processorDeps o
                | None => None
                end) w = (Rejected e, w) ->
  getProcessor_processor [h] o ev w = (Rejected e, w).
Proof.
  intros Hin Hp. unfold getProcessor_processor. simpl. rewrite Hin. simpl.
  now rewrite Hp.
Qed.

(** C6. Error boundary: the processor that getProcessor wraps in
    errorHandler never rejects, whatever the handlers are and whatever the
    event is: a rejection of the handlers is caught and logged as an error,
    so a loop that awaits the processor for each event of a queue reaches
    every event. This holds in particular for the 'Unknown event' rejection
    of a handler built by buildHandler for an event it has no function for,
    and for the not-found error of the agreement handlers when the event's
    Agreement is missing. *)
Theorem getProcessor_never_rejects (hs : list EventsHandler)
    (lg : option string) (deps : option Options) :
  let P := getProcessor hs (defaultBoundary lg deps) in
  let logger := getProcessor_logger (defaultBoundary lg deps) in
  (forall ev w, fst (P ev w) = Resolved tt)
  /\ (forall ev w, fst (getProcessor hs None ev w) = Resolved tt)
  /\ (forall ev w,
        P ev w
        = match getProcessor_processor hs (defaultBoundary lg deps) ev w with
          | (Resolved _, w') => (Resolved tt, w')
          | (Rejected e, w') => (Resolved tt, logged logger e w')
          end)
  /\ (forall evs w, drainQueue P evs w = (Resolved tt, dispatchAll P evs w))
  /\ (forall fns names ev w,
        includes names (event ev) = true ->
        isValidEvent (event ev) fns = false ->
        getProcessor [buildHandler fns names] (defaultBoundary lg deps) ev w
        = (Resolved tt, logged logger (Error ("Unknown event " ++ event ev)) w))
  /\ (forall ev w,
        needsAgreement ev = true ->
        agreementKnown ev w = false ->
        exists tag,
          getProcessor [agreement hexToAscii soliditySha3] (defaultBoundary lg deps) ev w
          = (Resolved tt,
             logged logger
               (EventError ("Agreement with ID "
                            ++ showOpt (rv_agreementReference (returnValues ev))
                            ++ " was not found!") tag) w)).
Proof.
  intros P logger. subst P logger. unfold getProcessor, defaultBoundary. simpl.
  repeat split.
  - intros. apply errorHandler_fst.
  - intros. apply errorHandler_fst.
  - intros. apply errorHandler_resolves.
  - apply drainQueue_dispatchAll. intros. apply errorHandler_fst.
  - intros fns names ev w Hin Hval. rewrite errorHandler_resolves.
    rewrite (getProcessor_processor_single _ _ ev w
               (Error ("Unknown event " ++ event ev))); [reflexivity | exact Hin |].
    apply buildHandler_unknown. exact Hval.
  - intros ev w Hn Hk.
    destruct (agreement_not_found ev deps w Hn Hk) as [tag Htag].
    exists tag. rewrite errorHandler_resolves.
    erewrite getProcessor_processor_single; [reflexivity | | exact Htag].
    unfold needsAgreement, includes in *. simpl in *.
    rewrite !orb_true_iff in *. tauto.
Qed.

End AgreementHandlers.

(* ------------------------------------------------------------------ *)
(** ** The blockchain events processor *)

Lemma filterBlockchainEvents_eval (offerId : string) (callback : Processor)
    (ev : BlockchainEvent) (w : World) :
  filterBlockchainEvents offerId callback ev w
  = if (isEventWithProvider ev && providerIs offerId ev)
       || (startsWith (event ev) "Agreement" && agreementKnown ev w)
    then callback ev (withEffects [gotLog ev] w)
    else (Resolved tt, withEffects [gotLog ev; notRelatedLog offerId] w).
Proof.
  unfold filterBlockchainEvents, agreementKnown, withEffects, gotLog, notRelatedLog.
  async.
  destruct (isEventWithProvider ev && providerIs offerId ev); simpl; [reflexivity|].
  destruct (startsWith (event ev) "Agreement"); simpl.
  - destruct (rv_agreementReference (returnValues ev)) as [i|]; simpl.
    + destruct (findByPk_rows i (agreements w)); simpl;
        rewrite <- ?app_assoc; reflexivity.
    + rewrite <- app_assoc. reflexivity.
  - rewrite <- app_assoc. reflexivity.
Qed.

Lemma providerIs_isEventWithProvider (offerId : string) (ev : BlockchainEvent) :
  offerId <> "" ->
  isEventWithProvider ev && providerIs offerId ev = providerIs offerId ev.
Proof.
  intros Hne. unfold isEventWithProvider, providerIs.
  destruct (provider (returnValues ev)) as [p|]; [|reflexivity].
  destruct (String.eqb p offerId) eqn:E; [|apply andb_false_r].
  apply String.eqb_eq in E. subst p.
  apply String.eqb_neq in Hne. now rewrite Hne.
Qed.

(** C7. Event relevance filter: for a node with a (non-empty) offer id, an
    incoming event is handed to the handler pipeline if and only if its
    returnValues.provider equals the offer id or it is an agreement event
    (its name starts with 'Agreement') whose agreement id is in the
    Agreement table. The pipeline then runs on the event after the debug
    trace of the arrival; every other event is dropped: the filter resolves
    whatever the pipeline is, the table is as it was and the only effects
    are the two debug traces. *)
Theorem filterBlockchainEvents_relevance (offerId : string) (callback : Processor)
    (ev : BlockchainEvent) (w : World) :
  offerId <> "" ->
  filterBlockchainEvents offerId callback ev w
  = if isRelevant offerId ev w
    then callback ev (mkWorld (agreements w) (effects w ++ [gotLog ev]))
    else (Resolved tt,
          mkWorld (agreements w) (effects w ++ [gotLog ev; notRelatedLog offerId])).
Proof.
  intros Hne. rewrite filterBlockchainEvents_eval.
  rewrite providerIs_isEventWithProvider by exact Hne. reflexivity.
Qed.

Lemma filterBlockchainEvents_fst (offerId : string) (callback : Processor) :
  (forall ev w, fst (callback ev w) = Resolved tt) ->
  forall ev w, fst (filterBlockchainEvents offerId callback ev w) = Resolved tt.
Proof.
  intros Hcb ev w. rewrite filterBlockchainEvents_eval.
  match goal with |- context [if ?c then _ else _] => destruct c end;
    [apply Hcb | reflexivity].
Qed.

Section ProcessorRuns.

Variable hexToAscii : string -> string.
Variable soliditySha3 : list string -> string.
Variable offer : EventsHandler.
Variable hasSufficientFunds : Agreement -> bool.
Variable offerId : string.
Variable manager : ProviderManager.
Variable eth : Eth.

Local Abbreviation processor :=
  (this_processor hexToAscii soliditySha3 offer offerId manager eth).
Local Abbreviation emitAll' :=
  (emitAll hexToAscii soliditySha3 offer hasSufficientFunds offerId manager eth).
Local Abbreviation emit' :=
  (emit hexToAscii soliditySha3 offer hasSufficientFunds offerId manager eth).

Lemma this_processor_fst (ev : BlockchainEvent) (w : World) :
  fst (processor ev w) = Resolved tt.
Proof.
  unfold this_processor. apply filterBlockchainEvents_fst.
  intros ev' w'. unfold this_getProcessor, getProcessor. simpl.
  apply errorHandler_fst.
Qed.

(** C8 (the code at the failing input). With forcePrecache set, run does
    not precache, whether a checkpoint exists or not: no initFinished
    listener and no queueing listener is registered, the live listeners are
    attached at once, run resolves and the world is untouched. *)
Theorem run_with_forcePrecache_skips_precache
    (lastFetched : option Z) (contract : option string) (w : World) :
  let st := run (Some (mkAppOptions (Some true) contract)) (initialState lastFetched w) in
  initFinishedListeners st = 0%nat
  /\ newEventListeners st = [ProcessorListener]
  /\ dataQueue st = []
  /\ runPromise st = Done (Resolved tt)
  /\ world st = w.
Proof.
  unfold run, initialState. simpl. rewrite andb_false_r. simpl. repeat split.
Qed.

(** When run precaches: no checkpoint and no forcePrecache. *)
Lemma run_precaches (options : option AppOptions) (lastFetched : option Z) (w : World) :
  truthyNumber lastFetched = false ->
  truthyBool (forcePrecacheOf options) = false ->
  run options (initialState lastFetched w)
  = mkState true [DataQueuePusher] 1 0 0 [] Pending lastFetched
      (withEffects [Log precacheLogger LVerbose (LogText "Populating database")] w).
Proof.
  intros Hl Hf. unfold run, initialState, forcePrecacheOf in *. simpl.
  rewrite Hl. destruct options as [o|]; simpl in *; rewrite ?Hf; reflexivity.
Qed.

(** While only the queueing listener is registered, the events that arrive
    are appended to the queue, in the order of arrival, and nothing else
    changes. *)
Lemma emitAll_queues (evs : list BlockchainEvent) :
  forall (q : list BlockchainEvent) (n e b : nat) (p : PromiseState)
         (lf : option Z) (w : World),
    emitAll' (map NewEvent evs) (mkState true [DataQueuePusher] n e b q p lf w)
    = mkState true [DataQueuePusher] n e b (q ++ evs) p lf w.
Proof.
  induction evs as [|ev evs IH]; intros; simpl.
  - now rewrite app_nil_r.
  - unfold emitAll in *. simpl. rewrite IH, <- app_assoc. reflexivity.
Qed.

(** C9. Precache handoff: when run precaches (no checkpoint, no
    forcePrecache), the events the emitter delivers before initFinished,
    however many, are appended to the queue in arrival order and none is
    dispatched yet; at initFinished the queueing listener is removed and the
    loop over the queue resolves after dispatching every queued event
    through the processor exactly once, in arrival order, each dispatch
    settled before the next one starts; the pinning of the valid Agreements
    follows on the resulting world. *)
Theorem precache_handoff (options : option AppOptions) (lastFetched : option Z)
    (evs : list BlockchainEvent) (w : World) :
  truthyNumber lastFetched = false ->
  truthyBool (forcePrecacheOf options) = false ->
  let st0 := run options (initialState lastFetched w) in
  let st1 := emitAll' (map NewEvent evs) st0 in
  let st2 := emit' InitFinished st1 in
  dataQueue st1 = evs
  /\ world st1 = world st0
  /\ drainQueue processor (dataQueue st1) (world st1)
     = (Resolved tt, dispatchAll processor evs (world st0))
  /\ world st2
     = snd (precache_end hasSufficientFunds manager
              (dispatchAll processor evs (world st0)))
  /\ existsb (NewEventListener_eqb DataQueuePusher) (newEventListeners st2) = false
  /\ dataQueue st2 = evs.
Proof.
  intros Hl Hf st0 st1 st2. subst st0 st1 st2.
  rewrite (run_precaches options lastFetched w Hl Hf), emitAll_queues. simpl.
  pose proof (drainQueue_dispatchAll processor this_processor_fst evs
                (withEffects [Log precacheLogger LVerbose (LogText "Populating database")] w))
    as Hdrain.
  repeat split; try exact Hdrain.
  - unfold onInitFinished, onAsync. simpl. rewrite Hdrain. simpl.
    destruct (precache_end hasSufficientFunds manager _) as [[[]|e] w']; reflexivity.
  - unfold onInitFinished, onAsync. simpl. rewrite Hdrain. simpl.
    destruct (precache_end hasSufficientFunds manager _) as [[[]|e] w']; reflexivity.
  - unfold onInitFinished, onAsync. simpl. rewrite Hdrain. simpl.
    destruct (precache_end hasSufficientFunds manager _) as [[[]|e] w']; reflexivity.
Qed.

End ProcessorRuns.

(* ------------------------------------------------------------------ *)
(** ** The job manager *)

Lemma lastEffect_jobPerform (e : Effect) (w : JobWorld) :
  lastEffect (jobPerform e w) = Some e.
Proof.
  unfold lastEffect, jobPerform. simpl. rewrite map_app. simpl.
  apply last_last.
Qed.

Section JobsWithQuietHooks.

Variable jobName : string.
Variable body : nat -> list Effect * option JsError.

(** The hooks of the job are absent or succeed. *)
Variables preHook afterHook : option (option JsError).
Hypothesis preHook_succeeds : hookOutcome preHook = None.
Hypothesis afterHook_succeeds : hookOutcome afterHook = None.

Local Abbreviation job := (mkJob jobName preHook body afterHook).

(** With such hooks the body decides the outcome of [job.run()]. *)
Lemma Job_run_eval (w : JobWorld) :
  Job_run job w
  = let w1 := persist job RUNNING None w in
    let w2 := mkJobWorld (entity w1) (S (invocations w1))
                (jobEffects w1 ++ fst (body (invocations w1))) in
    match snd (body (invocations w1)) with
    | Some e => (Rejected e, persist job ERRORED (Some (err_message e)) w2)
    | None => (Resolved tt, persist job FINISHED None w2)
    end.
Proof.
  unfold Job_run. simpl. rewrite preHook_succeeds.
  destruct (body (invocations w)) as [effs [e|]]; simpl; [reflexivity|].
  now rewrite afterHook_succeeds.
Qed.

(** After [k] recoverable failures with attempts left, the attempt that
    follows decides. *)
Lemma attempts_after_failures (k : nat) :
  forall (left attempt total : nat) (w : JobWorld),
    (forall i, (i < k)%nat -> failsRecoverably (snd (body (invocations w + i)%nat))) ->
    (k <= left)%nat ->
    exists w',
      attempts left attempt total job w
      = attempts (left - k) (attempt + k) total job w'
      /\ invocations w' = (invocations w + k)%nat
      /\ (k = 0%nat -> w' = w)
      /\ ((0 < k)%nat ->
          exists m, entity w' = Some m
                    /\ retry m = Some ((attempt + k - 1)%nat, total)
                    /\ job_name m = job_name (currentEntity job w)).
Proof.
  induction k as [|k IH]; intros left attempt total w Hfail Hle.
  - exists w. rewrite Nat.sub_0_r, !Nat.add_0_r.
    split; [reflexivity|]. split; [reflexivity|]. split; [reflexivity|]. lia.
  - destruct left as [|left]; [lia|].
    destruct (Hfail 0%nat ltac:(lia)) as [e [He Hrec]]. rewrite Nat.add_0_r in He.
    simpl attempts at 1. rewrite Job_run_eval. simpl. rewrite He, Hrec.
    match goal with |- context [attempts left (S attempt) total job ?w1] =>
      destruct (IH left (S attempt) total w1) as [w' [Heq [Hinv [Hzero Hretry]]]];
      [ intros i Hi; simpl;
        replace (S (invocations w + i)) with (invocations w + S i)%nat by lia;
        apply Hfail; lia
      | lia | ]
    end.
    exists w'. simpl in Hinv.
    replace (S left - S k)%nat with (left - k)%nat by lia.
    replace (attempt + S k)%nat with (S attempt + k)%nat by lia.
    split; [exact Heq|]. split; [lia|]. split; [discriminate|].
    intros _. destruct k as [|k].
    + rewrite (Hzero eq_refl). simpl. eexists. split; [reflexivity|].
      simpl. split; [repeat f_equal; lia | reflexivity].
    + destruct (Hretry ltac:(lia)) as [m [Hm [Hr Hnm]]]. exists m. split; [exact Hm|].
      rewrite Hr. split; [repeat f_equal; lia | exact Hnm].
Qed.

(** An attempt whose body succeeds ends the run. *)
Lemma attempts_success (left attempt total : nat) (w : JobWorld) :
  snd (body (invocations w)) = None ->
  attempts left attempt total job w
  = (Resolved tt,
     jobPerform (Broadcast I_HASH_PINNED (PHash jobName))
       (persist job FINISHED None
          (mkJobWorld
             (entity (persist job RUNNING None
                        (jobPerform (Broadcast I_HASH_START (PHash jobName)) w)))
             (S (invocations w))
             ((jobEffects w ++ [Broadcast I_HASH_START (PHash jobName)])
              ++ fst (body (invocations w)))))).
Proof.
  intros Hb. destruct left; simpl; rewrite Job_run_eval; simpl; rewrite Hb; reflexivity.
Qed.

(** An attempt whose body raises the size-limit error ends the run. *)
Lemma attempts_size_limit (left attempt total : nat) (w : JobWorld)
    (msg : string) (sz expected : Z) :
  snd (body (invocations w)) = Some (HashExceedsSizeError msg sz expected) ->
  attempts left attempt total job w
  = (Rejected (HashExceedsSizeError msg sz expected),
     jobPerform (Broadcast E_AGREEMENT_SIZE_LIMIT_EXCEEDED (PSizeLimit jobName sz expected))
       (persist job ERRORED (Some msg)
          (persist job ERRORED (Some msg)
             (mkJobWorld
                (entity (persist job RUNNING None
                           (jobPerform (Broadcast I_HASH_START (PHash jobName)) w)))
                (S (invocations w))
                ((jobEffects w ++ [Broadcast I_HASH_START (PHash jobName)])
                 ++ fst (body (invocations w))))))).
Proof.
  intros Hb. destruct left; simpl; rewrite Job_run_eval; simpl; rewrite Hb; reflexivity.
Qed.

(** C3. Retry ceiling: a job (its hooks absent or succeeding) whose body
    fails recoverably on its first two invocations and succeeds on the
    third, run by a manager configured with 3 retries (or more), makes
    JobsManager.run resolve; the persisted Job record ends FINISHED, with
    the retry mark 2 of the ceiling, the body has been invoked exactly 3
    times and the last notification is the completed one. *)
Theorem JobsManager_run_retry_ceiling (n : nat) :
  failsRecoverably (snd (body 0)) ->
  failsRecoverably (snd (body 1)) ->
  snd (body 2) = None ->
  (3 <= n)%nat ->
  let r := JobsManager_run (mkJobsManager n) job None newJobWorld in
  fst r = Resolved tt
  /\ (exists m, entity (snd r) = Some m
                /\ state m = FINISHED /\ job_name m = jobName /\ retry m = Some (2%nat, n))
  /\ invocations (snd r) = 3%nat
  /\ lastEffect (snd r) = Some (Broadcast I_HASH_PINNED (PHash jobName)).
Proof.
  intros H0 H1 H2 Hn r. subst r. unfold JobsManager_run. simpl.
  destruct (attempts_after_failures 2 (Nat.pred n) 1 n newJobWorld) as
    [w' [Heq [Hinv [_ Hretry]]]].
  { intros i Hi. simpl. destruct i as [|[|i]]; [exact H0 | exact H1 | lia]. }
  { lia. }
  destruct (Hretry ltac:(lia)) as [m [Hm [Hr Hnm]]]. simpl in Hinv, Hr, Hnm.
  rewrite Heq, attempts_success by (rewrite Hinv; exact H2).
  simpl. rewrite Hinv. unfold currentEntity. simpl. rewrite Hm. simpl.
  split; [reflexivity|]. split.
  - eexists. split; [reflexivity|]. simpl. repeat split; assumption.
  - split; [reflexivity|]. apply lastEffect_jobPerform.
Qed.

(** The size-limit part of C4 for the manager: after [k] recoverable
    failures, [k] below the ceiling, a size-limit error of the body ends the
    run at once. *)
Lemma JobsManager_run_size_limit (k n : nat) (msg : string) (sz expected : Z) :
  (forall i, (i < k)%nat -> failsRecoverably (snd (body i))) ->
  snd (body k) = Some (HashExceedsSizeError msg sz expected) ->
  (k < n)%nat ->
  let r := JobsManager_run (mkJobsManager n) job None newJobWorld in
  fst r = Rejected (HashExceedsSizeError msg sz expected)
  /\ (exists m, entity (snd r) = Some m
                /\ state m = ERRORED /\ job_name m = jobName
                /\ errorMessage m = Some msg
                /\ retry m = if (k =? 0)%nat then None else Some (k, n))
  /\ invocations (snd r) = S k
  /\ lastEffect (snd r)
     = Some (Broadcast E_AGREEMENT_SIZE_LIMIT_EXCEEDED (PSizeLimit jobName sz expected)).
Proof.
  intros Hfail Hk Hn r. subst r. unfold JobsManager_run. simpl.
  destruct (attempts_after_failures k (Nat.pred n) 1 n newJobWorld) as
    [w' [Heq [Hinv [Hzero Hretry]]]].
  { intros i Hi. simpl. now apply Hfail. }
  { lia. }
  simpl in Hinv.
  rewrite Heq, (attempts_size_limit _ _ _ _ msg sz expected) by (rewrite Hinv; exact Hk).
  simpl. rewrite Hinv. split; [reflexivity|]. split.
  - destruct k as [|k].
    + rewrite (Hzero eq_refl). simpl. eexists. split; [reflexivity|]. simpl. auto.
    + destruct (Hretry ltac:(lia)) as [m [Hm [Hr Hnm]]]. simpl in Hr, Hnm.
      unfold currentEntity. simpl. rewrite Hm. simpl.
      eexists. split; [reflexivity|]. simpl. rewrite Hr.
      repeat split; try assumption.
  - split; [reflexivity|]. apply lastEffect_jobPerform.
Qed.

(** The body of the pin job raises the size-limit error when the
    cumulative size of the content, in megabytes, exceeds the expected
    size. *)
Lemma PinJob_run_size_limit (bytesToMegabytes : Z -> Q) (showBigNumber : Q -> string)
    (ipfs : IpfsClient) (hash : string) (expectedSize : Z)
    (i : nat) (cid : string) (cumulativeSize : Z) :
  newCID ipfs (removeFirst "/ipfs/" hash) = inr cid ->
  object_stat ipfs i cid = inr cumulativeSize ->
  gt (bytesToMegabytes cumulativeSize) (inject_Z expectedSize) = true ->
  snd (PinJob_run bytesToMegabytes showBigNumber ipfs hash expectedSize i)
  = Some (HashExceedsSizeError "The hash exceeds payed size!" cumulativeSize expectedSize).
Proof.
  intros Hcid Hstat Hgt. unfold PinJob_run. rewrite Hcid, Hstat, Hgt. reflexivity.
Qed.

(** C4. Non-recoverable short-circuit: when the body of a job (its hooks
    absent or succeeding) raises the size-limit error HashExceedsSizeError after [k]
    recoverable failures, [k] below the retry ceiling, JobsManager.run makes
    no further attempt whatever budget is left: it rejects with that error,
    the persisted Job record ends ERRORED, the last notification is the
    size-limit one and the body has been invoked exactly [k + 1] times (2
    with one prior failure). The body of the pin job raises that error when
    the cumulative size of the fetched content exceeds the size paid for. *)
Theorem JobsManager_run_non_recoverable (k n : nat) (msg : string) (sz expected : Z) :
  (forall i, (i < k)%nat -> failsRecoverably (snd (body i))) ->
  snd (body k) = Some (HashExceedsSizeError msg sz expected) ->
  (k < n)%nat ->
  let r := JobsManager_run (mkJobsManager n) job None newJobWorld in
  (fst r = Rejected (HashExceedsSizeError msg sz expected)
   /\ (exists m, entity (snd r) = Some m
                 /\ state m = ERRORED /\ job_name m = jobName
                 /\ errorMessage m = Some msg
                 /\ retry m = if (k =? 0)%nat then None else Some (k, n))
   /\ invocations (snd r) = S k
   /\ lastEffect (snd r)
      = Some (Broadcast E_AGREEMENT_SIZE_LIMIT_EXCEEDED (PSizeLimit jobName sz expected)))
  /\ (forall bytesToMegabytes showBigNumber ipfs hash expectedSize i cid cumulativeSize,
        newCID ipfs (removeFirst "/ipfs/" hash) = inr cid ->
        object_stat ipfs i cid = inr cumulativeSize ->
        gt (bytesToMegabytes cumulativeSize) (inject_Z expectedSize) = true ->
        snd (PinJob_run bytesToMegabytes showBigNumber ipfs hash expectedSize i)
        = Some (HashExceedsSizeError "The hash exceeds payed size!"
                  cumulativeSize expectedSize)).
Proof.
  intros Hfail Hk Hn r. split.
  - exact (JobsManager_run_size_limit k n msg sz expected Hfail Hk Hn).
  - intros b s0 ipfs h x i cid c Hcid Hstat Hgt.
    exact (PinJob_run_size_limit b s0 ipfs h x i cid c Hcid Hstat Hgt).
Qed.

End JobsWithQuietHooks.

(* ------------------------------------------------------------------ *)
(** ** The properties at sample inputs *)

Lemma NewAgreement_replay_idempotent_sample :
  pkUnique (agreements emptyWorld)
  /\ countPk "0xC0:0x51:0x6d:0x70"
       (agreements
          (snd (NewAgreement sample_hexToAscii sample_soliditySha3 sample_NewAgreement
                  (mkOptions (Some sample_manager) (Some sample_eth))
                  (snd (NewAgreement sample_hexToAscii sample_soliditySha3
                          sample_NewAgreement
                          (mkOptions (Some sample_manager) (Some sample_eth))
                          emptyWorld))))) = 1%nat.
Proof.
  assert (H : pkUnique (agreements emptyWorld)) by constructor.
  split; [exact H|].
  exact (proj1 (proj2 (NewAgreement_replay_idempotent sample_hexToAscii sample_soliditySha3
                         sample_NewAgreement (Some sample_manager) (Some sample_manager)
                         sample_eth sample_eth emptyWorld H))).
Defined.

Lemma funds_follow_events_in_order_sample :
  findByPk_rows "0xA1" (agreements sample_world) = Some sample_agreement
  /\ Forall (fun ev => isFundEvent ev = true) sample_funds
  /\ exists a',
       findByPk_rows "0xA1"
         (agreements
            (dispatchAll
               (agreementProcessor sample_hexToAscii sample_soliditySha3 None sample_eth None)
               sample_funds sample_world)) = Some a'
       /\ availableFunds a' = availableFunds sample_agreement + 50
       /\ lastPayout a' = 12000.
Proof.
  assert (Hf : findByPk_rows "0xA1" (agreements sample_world) = Some sample_agreement)
    by reflexivity.
  assert (Ha : Forall (fun ev => isFundEvent ev = true) sample_funds)
    by (repeat constructor).
  split; [exact Hf|]. split; [exact Ha|].
  destruct (funds_follow_events_in_order sample_hexToAscii sample_soliditySha3 None
              sample_eth None "0xA1" sample_funds sample_agreement sample_world Hf Ha)
    as [a' [H1 [H2 H3]]].
  exists a'. split; [exact H1|]. split; [rewrite H2 | rewrite H3]; reflexivity.
Defined.

Lemma JobsManager_run_retry_ceiling_sample :
  fst (JobsManager_run (mkJobsManager 3) (mkJob "QmStub" None retry_stub None) None
         newJobWorld) = Resolved tt
  /\ invocations
       (snd (JobsManager_run (mkJobsManager 3) (mkJob "QmStub" None retry_stub None) None
               newJobWorld)) = 3%nat.
Proof.
  assert (H0 : failsRecoverably (snd (retry_stub 0)))
    by (exists (Error "testing"); split; reflexivity).
  assert (H1 : failsRecoverably (snd (retry_stub 1)))
    by (exists (Error "testing"); split; reflexivity).
  assert (H2 : snd (retry_stub 2) = None) by reflexivity.
  assert (Hn : (3 <= 3)%nat) by lia.
  pose proof (JobsManager_run_retry_ceiling "QmStub" retry_stub None None
                eq_refl eq_refl 3 H0 H1 H2 Hn) as H.
  split; [exact (proj1 H) | exact (proj1 (proj2 (proj2 H)))].
Defined.

Lemma JobsManager_run_non_recoverable_sample :
  fst (JobsManager_run (mkJobsManager 3) (mkJob "QmStub" None size_stub None) None
         newJobWorld) = Rejected (HashExceedsSizeError "testing2" 10 9)
  /\ invocations
       (snd (JobsManager_run (mkJobsManager 3) (mkJob "QmStub" None size_stub None) None
               newJobWorld)) = 2%nat
  /\ snd (PinJob_run sample_bytesToMegabytes (fun _ => "3") sample_ipfs "/ipfs/QmData" 2 0)
     = Some (HashExceedsSizeError "The hash exceeds payed size!" 3145728 2).
Proof.
  assert (Hfail : forall i, (i < 1)%nat -> failsRecoverably (snd (size_stub i))).
  { intros i Hi. assert (i = 0%nat) as -> by lia.
    exists (Error "testing1"). split; reflexivity. }
  assert (Hk : snd (size_stub 1) = Some (HashExceedsSizeError "testing2" 10 9))
    by reflexivity.
  assert (Hn : (1 < 3)%nat) by lia.
  pose proof (JobsManager_run_non_recoverable "QmStub" size_stub None None
                eq_refl eq_refl 1 3 "testing2" 10 9 Hfail Hk Hn) as H.
  split; [exact (proj1 (proj1 H))|].
  split; [exact (proj1 (proj2 (proj2 (proj1 H))))|].
  apply (proj2 H) with (cid := "QmData"); reflexivity.
Defined.

(** C5 as stated fails when the handler options carry no provider manager:
    the Agreement is found and deactivated and the handler resolves, but no
    unpin request is issued and nothing is broadcast. *)
Lemma AgreementStopped_without_manager_no_unpin :
  let r := AgreementStopped sample_AgreementStopped noOptions sample_world in
  findByPk_rows "0xA1" (agreements sample_world) = Some sample_agreement
  /\ fst r = Resolved tt
  /\ findByPk_rows "0xA1" (agreements (snd r)) = Some (set_isActive false sample_agreement)
  /\ List.length (unpinRequests (effectsSince sample_world (snd r))) <> 1%nat
  /\ broadcasts (effectsSince sample_world (snd r)) = [].
Proof.
  vm_compute. repeat split; discriminate.
Qed.

Lemma getProcessor_never_rejects_sample :
  getProcessor [buildHandler [] ["Transfer"]] (defaultBoundary None None)
    sample_Transfer sample_world
  = (Resolved tt, logged "processor" (Error "Unknown event Transfer") sample_world)
  /\ exists tag,
       getProcessor [agreement sample_hexToAscii sample_soliditySha3]
         (defaultBoundary None None) sample_AgreementStopped emptyWorld
       = (Resolved tt,
          logged "processor"
            (EventError "Agreement with ID 0xA1 was not found!" tag) emptyWorld).
Proof.
  pose proof (getProcessor_never_rejects sample_hexToAscii sample_soliditySha3
                [] None None) as H.
  destruct H as [_ [_ [_ [_ [Hunknown Hmissing]]]]].
  split.
  - apply (Hunknown [] ["Transfer"] sample_Transfer sample_world); reflexivity.
  - apply (Hmissing sample_AgreementStopped emptyWorld); reflexivity.
Defined.

Lemma filterBlockchainEvents_relevance_sample :
  "0x0FFE2" <> ""
  /\ filterBlockchainEvents "0x0FFE2" (fun _ => resolve tt) sample_NewAgreement emptyWorld
     = (Resolved tt, mkWorld [] [gotLog sample_NewAgreement])
  /\ filterBlockchainEvents "0x0FFE2" (fun _ => throw (Error "dispatched"))
       sample_Transfer emptyWorld
     = (Resolved tt, mkWorld [] [gotLog sample_Transfer; notRelatedLog "0x0FFE2"]).
Proof.
  assert (H : "0x0FFE2" <> "") by discriminate.
  split; [exact H|]. split.
  - exact (filterBlockchainEvents_relevance "0x0FFE2" (fun _ => resolve tt)
             sample_NewAgreement emptyWorld H).
  - exact (filterBlockchainEvents_relevance "0x0FFE2" (fun _ => throw (Error "dispatched"))
             sample_Transfer emptyWorld H).
Defined.

Lemma precache_handoff_sample :
  truthyNumber None = false
  /\ truthyBool (forcePrecacheOf None) = false
  /\ dataQueue
       (emitAll sample_hexToAscii sample_soliditySha3 (buildHandler [] [])
          (fun _ => true) "0x0FFE2" sample_manager sample_eth
          (map NewEvent (sample_NewAgreement :: sample_funds))
          (run None (initialState None emptyWorld)))
     = sample_NewAgreement :: sample_funds.
Proof.
  assert (Hl : truthyNumber None = false) by reflexivity.
  assert (Hf : truthyBool (forcePrecacheOf None) = false) by reflexivity.
  split; [exact Hl|]. split; [exact Hf|].
  exact (proj1 (precache_handoff sample_hexToAscii sample_soliditySha3 (buildHandler [] [])
                  (fun _ => true) "0x0FFE2" sample_manager sample_eth None None
                  (sample_NewAgreement :: sample_funds) emptyWorld Hl Hf)).
Defined.

Lemma AgreementStopped_unpin_failure_sample :
  fst (AgreementStopped sample_AgreementStopped
         (mkOptions (Some failing_manager) (Some sample_eth)) sample_world)
  = Rejected (ForeignError "HTTPError" None "context deadline exceeded")
  /\ isActive sample_agreement = true
  /\ exists a',
       findByPk_rows "0xA1"
         (agreements
            (snd (AgreementStopped sample_AgreementStopped
                    (mkOptions (Some failing_manager) (Some sample_eth)) sample_world)))
       = Some a'
       /\ isActive a' = false
       /\ a' = set_isActive false sample_agreement.
Proof.
  pose proof (AgreementStopped_unpin_failure_keeps_deactivation sample_AgreementStopped
                (mkOptions (Some failing_manager) (Some sample_eth)) failing_manager
                sample_world "0xA1" sample_agreement
                (ForeignError "HTTPError" None "context deadline exceeded")
                eq_refl eq_refl eq_refl eq_refl eq_refl) as H.
  split; [exact (proj1 H) | split; [reflexivity | exact (proj1 (proj2 H))]].
Defined.

(* ================================================================== *)
(** * Further properties of the code *)

(* ------------------------------------------------------------------ *)
(** ** [decodeByteArray] *)

Lemma removeNulls_no_nul (s : string) : containsNul (removeNulls s) = false.
Proof.
  induction s as [|c s IH]; simpl; [reflexivity|].
  destruct (Ascii.eqb c zero) eqn:E; simpl; [exact IH | now rewrite E].
Qed.

Lemma removeNulls_app (s t : string) :
  removeNulls (s ++ t) = removeNulls s ++ removeNulls t.
Proof.
  induction s as [|c s IH]; simpl; [reflexivity|].
  destruct (Ascii.eqb c zero); simpl; now rewrite IH.
Qed.

Lemma removeNulls_id (s : string) : containsNul s = false -> removeNulls s = s.
Proof.
  induction s as [|c s IH]; simpl; [reflexivity|].
  intros H. apply orb_false_iff in H. destruct H as [Hc Hs].
  rewrite Hc. now rewrite IH.
Qed.

Lemma removeNulls_allNul (s : string) : allNul s = true -> removeNulls s = "".
Proof.
  induction s as [|c s IH]; simpl; [reflexivity|].
  intros H. apply andb_true_iff in H. destruct H as [Hc Hs].
  rewrite Hc. now apply IH.
Qed.

Lemma trimEnd_id (s : string) : endsWithWhiteSpace s = false -> trimEnd s = s.
Proof.
  induction s as [|c s IH]; [reflexivity|].
  destruct s as [|c' s'].
  - simpl. intros H. now rewrite H.
  - intros H. change (endsWithWhiteSpace (String c' s') = false) in H.
    specialize (IH H). change (trimEnd (String c (String c' s')))
      with (match trimEnd (String c' s') with
            | EmptyString => if isWhiteSpace c then EmptyString else String c EmptyString
            | rest' => String c rest'
            end).
    now rewrite IH.
Qed.

Lemma trimStart_id (s : string) : startsWithWhiteSpace s = false -> trimStart s = s.
Proof.
  destruct s as [|c s]; simpl; [reflexivity|]. intros H. now rewrite H.
Qed.

Lemma nul_not_whiteSpace (c : ascii) : Ascii.eqb c zero = true -> isWhiteSpace c = false.
Proof.
  intros H. apply Ascii.eqb_eq in H. subst c. reflexivity.
Qed.

Lemma endsWithWhiteSpace_app_nul (s pad : string) :
  allNul pad = true -> pad <> "" -> endsWithWhiteSpace (s ++ pad) = false.
Proof.
  intros Hpad Hne. induction s as [|c s IH].
  - simpl. clear Hne. induction pad as [|c pad IHp]; [reflexivity|].
    simpl in Hpad. apply andb_true_iff in Hpad. destruct Hpad as [Hc Hp].
    destruct pad as [|c' pad'].
    + simpl. now apply nul_not_whiteSpace.
    + change (endsWithWhiteSpace (String c' pad') = false). now apply IHp.
  - simpl. destruct (s ++ pad) as [|c' t] eqn:E.
    + destruct s; simpl in E; [contradiction | discriminate].
    + exact IH.
Qed.

Lemma startsWithWhiteSpace_app (s pad : string) :
  startsWithWhiteSpace s = false -> allNul pad = true ->
  startsWithWhiteSpace (s ++ pad) = false.
Proof.
  destruct s as [|c s]; simpl; [|auto]. intros _.
  destruct pad as [|c pad]; simpl; [reflexivity|].
  intros H. apply andb_true_iff in H. now apply nul_not_whiteSpace.
Qed.

Section FurtherHandlers.

Variable hexToAscii : string -> string.
Variable soliditySha3 : list string -> string.

(** X1. The decoded data reference never contains a null character,
    whatever the chunks decode to. *)
Theorem decodeByteArray_no_nul (fileReference : list string) :
  containsNul (decodeByteArray hexToAscii fileReference) = false.
Proof. unfold decodeByteArray. apply removeNulls_no_nul. Qed.

(** X2. A reference padded with null characters is recovered: when the
    chunks decode, joined, to a text without null characters and without
    leading white space, followed by null padding, the result is that text.
    The text is not trimmed at its end when padding follows it: white space
    in front of the padding stays, because the trimming runs before the
    null characters are removed. *)
Theorem decodeByteArray_padded (fileReference : list string) (s pad : string) :
  String.concat "" (map hexToAscii fileReference) = s ++ pad ->
  containsNul s = false ->
  allNul pad = true ->
  startsWithWhiteSpace s = false ->
  pad <> "" \/ endsWithWhiteSpace s = false ->
  decodeByteArray hexToAscii fileReference = s.
Proof.
  intros Hjoin Hs Hpad Hstart Hend. unfold decodeByteArray, trim. rewrite Hjoin.
  rewrite trimStart_id by now apply startsWithWhiteSpace_app.
  rewrite trimEnd_id.
  - rewrite removeNulls_app, removeNulls_id, removeNulls_allNul by assumption.
    clear. induction s; simpl; [reflexivity | now f_equal].
  - destruct (string_dec pad "") as [-> | Hne].
    + destruct Hend as [Hc | He]; [contradiction|].
      replace (s ++ "") with s; [exact He|].
      clear. induction s; simpl; [reflexivity | now f_equal].
    + now apply endsWithWhiteSpace_app_nul.
Qed.

(* ------------------------------------------------------------------ *)
(** ** [getProcessor] *)

Lemma Promise_all_world (ps : list (Async unit)) :
  forall w, snd (Promise_all ps w) = fold_left (fun w p => snd (p w)) ps w.
Proof.
  induction ps as [|p ps IH]; intros w; simpl; [reflexivity|].
  destruct (p w) as [[[]|e] w']; simpl; apply IH.
Qed.

Lemma getProcessor_processor_world (hs : list EventsHandler)
    (lg : option string) (deps : option Options) (ev : BlockchainEvent) (w : World) :
  snd (getProcessor_processor hs (defaultBoundary lg deps) ev w)
  = runAll (listed hs ev) deps ev w.
Proof.
  unfold getProcessor_processor, runAll, listed, defaultBoundary. simpl.
  rewrite Promise_all_world. generalize (filter (fun handler => includes (events handler) (event ev)) hs).
  intros l. revert w. induction l as [|h l IH]; intros w; simpl; [reflexivity | apply IH].
Qed.

(** X3. An event that no handler of the list names is ignored by the
    processor of getProcessor: it resolves, nothing is logged and the world
    is as it was. *)
Theorem getProcessor_unlisted_event_ignored (hs : list EventsHandler)
    (lg : option string) (deps : option Options) (ev : BlockchainEvent) (w : World) :
  forallb (fun handler => negb (includes (events handler) (event ev))) hs = true ->
  getProcessor hs (defaultBoundary lg deps) ev w = (Resolved tt, w).
Proof.
  intros Hnone. unfold getProcessor, defaultBoundary. simpl.
  rewrite errorHandler_resolves. unfold getProcessor_processor. simpl.
  assert (Hf : filter (fun handler => includes (events handler) (event ev)) hs = []).
  { induction hs as [|h hs IH]; simpl in *; [reflexivity|].
    apply andb_true_iff in Hnone. destruct Hnone as [Hh Hrest].
    apply negb_true_iff in Hh. rewrite Hh. now apply IH. }
  rewrite Hf. reflexivity.
Qed.

(** X4. Routing: when one handler of the list names the event and no other
    does, the processor of getProcessor runs that handler and none of the
    others: it resolves in the world that handler leaves, with the handler's
    error logged, once, when it rejected. *)
Theorem getProcessor_routes_to_listing_handler (before after : list EventsHandler)
    (h : EventsHandler) (lg : option string) (deps : option Options)
    (ev : BlockchainEvent) (w : World) :
  includes (events h) (event ev) = true ->
  forallb (fun handler => negb (includes (events handler) (event ev))) (before ++ after)
  = true ->
  getProcessor (before ++ h :: after) (defaultBoundary lg deps) ev w
  = match process h ev deps w with
    | (Resolved _, w') => (Resolved tt, w')
    | (Rejected e, w') =>
        (Resolved tt, logged (getProcessor_logger (defaultBoundary lg deps)) e w')
    end.
Proof.
  intros Hin Hnone. unfold getProcessor, defaultBoundary. simpl.
  rewrite errorHandler_resolves. unfold getProcessor_processor. simpl.
  assert (Hnil : forall l,
             forallb (fun handler => negb (includes (events handler) (event ev))) l = true ->
             filter (fun handler => includes (events handler) (event ev)) l = []).
  { induction l as [|x l IH]; simpl; [reflexivity|]. intros Hl.
    apply andb_true_iff in Hl. destruct Hl as [Hx Hl].
    apply negb_true_iff in Hx. rewrite Hx. now apply IH. }
  rewrite forallb_app in Hnone. apply andb_true_iff in Hnone. destruct Hnone as [Hb Ha].
  rewrite filter_app. simpl. rewrite Hin, (Hnil _ Hb), (Hnil _ Ha). simpl.
  destruct (process h ev deps w) as [[[]|e] w']; reflexivity.
Qed.

(* ------------------------------------------------------------------ *)
(** ** The agreement handlers, all events *)

(** The dispatch of [agreement.process] by the name of the event. *)
Lemma agreement_process_eval (ev : BlockchainEvent) (o : option Options) (w : World) :
  process (agreement hexToAscii soliditySha3) ev o w
  = let opts := match o with
                | Some x => x
                | None => noOptions
                end in
    if String.eqb "NewAgreement" (event ev)
    then NewAgreement hexToAscii soliditySha3 ev opts w
    else if String.eqb "AgreementStopped" (event ev) then AgreementStopped ev opts w
    else if String.eqb "AgreementFundsDeposited" (event ev)
    then AgreementFundsDeposited ev opts w
    else if String.eqb "AgreementFundsWithdrawn" (event ev)
    then AgreementFundsWithdrawn ev opts w
    else if String.eqb "AgreementFundsPayout" (event ev)
    then AgreementFundsPayout ev opts w
    else if includes objectPrototypeKeys (event ev) then inheritedCall (event ev) w
    else (Rejected (Error ("Unknown event " ++ event ev)), w).
Proof.
  unfold agreement, buildHandler, isValidEvent, handlers.
  cbn [process lookupHandler].
  destruct (String.eqb "NewAgreement" (event ev)); [reflexivity|].
  destruct (String.eqb "AgreementStopped" (event ev)); [reflexivity|].
  destruct (String.eqb "AgreementFundsDeposited" (event ev)); [reflexivity|].
  destruct (String.eqb "AgreementFundsWithdrawn" (event ev)); [reflexivity|].
  destruct (String.eqb "AgreementFundsPayout" (event ev)); [reflexivity|].
  destruct (includes objectPrototypeKeys (event ev)); reflexivity.
Qed.

Lemma inheritedCall_world (name : string) (w : World) : snd (inheritedCall name w) = w.
Proof.
  unfold inheritedCall. destruct (includes _ name); reflexivity.
Qed.

(** What a handler of [agreement] does to the table: nothing, or it
    overwrites the row of the Agreement the event is about, keeping its key
    and its offer, or it upserts the Agreement of a creation. *)
Lemma agreement_process_shape (ev : BlockchainEvent) (o : option Options) (w : World) :
  let rows' := agreements (snd (process (agreement hexToAscii soliditySha3) ev o w)) in
  rows' = agreements w
  \/ (exists j b a',
        touched soliditySha3 ev = Some j
        /\ findByPk_rows j (agreements w) = Some b
        /\ agreementReference a' = j
        /\ offerId a' = offerId b
        /\ rows' = updateRows a' (agreements w))
  \/ (exists e,
        "NewAgreement" = event ev
        /\ rows' = upsertRows (dataOf hexToAscii soliditySha3 ev e) (agreements w)).
Proof.
  intros rows'. subst rows'. rewrite agreement_process_eval. unfold touched. cbv zeta.
  set (opts := match o with Some x => x | None => noOptions end).
  destruct (String.eqb "NewAgreement" (event ev)) eqn:E0.
  { apply String.eqb_eq in E0. destruct opts as [m [e|]].
    - right. right. exists e. split; [exact E0 | apply NewAgreement_agreements].
    - left. reflexivity. }
  assert (Hupd : forall (f : Agreement -> Agreement) (j : string) (b : Agreement),
             (forall x, agreementReference (f x) = agreementReference x) ->
             (forall x, offerId (f x) = offerId x) ->
             findByPk_rows j (agreements w) = Some b ->
             exists j0 b0 a',
               Some j = Some j0
               /\ findByPk_rows j0 (agreements w) = Some b0
               /\ agreementReference a' = j0
               /\ offerId a' = offerId b0
               /\ updateRows (f b) (agreements w) = updateRows a' (agreements w)).
  { intros f j b Hk Ho Hb. exists j, b, (f b).
    destruct (findByPk_rows_Some _ _ _ Hb) as [Hkey _].
    repeat split; try assumption; [now rewrite Hk | apply Ho]. }
  destruct (String.eqb "AgreementStopped" (event ev)).
  { unfold AgreementStopped. async.
    destruct (rv_agreementReference (returnValues ev)) as [j|] eqn:Hj; simpl;
      [|now left].
    destruct (findByPk_rows j (agreements w)) as [b|] eqn:Hb; simpl; [|now left].
    right. left.
    destruct (Hupd (set_isActive false) j b (fun _ => eq_refl) (fun _ => eq_refl) Hb)
      as [j0 [b0 [a' [H1 [H2 [H3 [H4 H5]]]]]]].
    exists j0, b0, a'. repeat split; try assumption.
    rewrite <- H5.
    destruct (manager opts) as [m|]; simpl; [|reflexivity].
    match goal with |- context [unpinOutcome m ?w0 ?h] =>
      destruct (unpinOutcome m w0 h) as [err|] end; simpl; [|reflexivity].
    destruct (hasNotPinnedCode err); reflexivity. }
  destruct (String.eqb "AgreementFundsDeposited" (event ev)).
  { unfold AgreementFundsDeposited. async.
    destruct (rv_agreementReference (returnValues ev)) as [j|] eqn:Hj; simpl;
      [|now left].
    destruct (findByPk_rows j (agreements w)) as [b|] eqn:Hb; simpl; [|now left].
    right. left.
    exact (Hupd (fun x => set_availableFunds (availableFunds x + amount (returnValues ev)) x)
             j b (fun _ => eq_refl) (fun _ => eq_refl) Hb). }
  destruct (String.eqb "AgreementFundsWithdrawn" (event ev)).
  { unfold AgreementFundsWithdrawn. async.
    destruct (rv_agreementReference (returnValues ev)) as [j|] eqn:Hj; simpl;
      [|now left].
    destruct (findByPk_rows j (agreements w)) as [b|] eqn:Hb; simpl; [|now left].
    right. left.
    exact (Hupd (fun x => set_availableFunds (availableFunds x - amount (returnValues ev)) x)
             j b (fun _ => eq_refl) (fun _ => eq_refl) Hb). }
  destruct (String.eqb "AgreementFundsPayout" (event ev)).
  { unfold AgreementFundsPayout. async.
    destruct (rv_agreementReference (returnValues ev)) as [j|] eqn:Hj; simpl;
      [|now left].
    destruct (findByPk_rows j (agreements w)) as [b|] eqn:Hb; simpl; [|now left].
    destruct (eth opts) as [e|]; simpl; [|now left].
    right. left.
    exact (Hupd (fun x => set_availableFunds
                            (availableFunds x - amount (returnValues ev))
                            (set_lastPayout (blockTimestamp e (blockNumber ev)) x))
             j b (fun _ => eq_refl) (fun _ => eq_refl) Hb). }
  left. destruct (includes objectPrototypeKeys (event ev));
    [now rewrite inheritedCall_world | reflexivity].
Qed.

Lemma findByPk_rows_app_either (i : string) (rows rows' : list Agreement) :
  findByPk_rows i (rows ++ rows')
  = match findByPk_rows i rows with
    | Some a => Some a
    | None => findByPk_rows i rows'
    end.
Proof.
  unfold findByPk_rows. induction rows as [|r rows IH]; simpl; [reflexivity|].
  destruct (hasPk i r); [reflexivity | exact IH].
Qed.

Lemma upsertRows_other (d : AgreementData) (i : string) (rows : list Agreement) :
  d_agreementReference d <> i ->
  findByPk_rows i (upsertRows d rows) = findByPk_rows i rows.
Proof.
  intros Hne. unfold upsertRows.
  destruct (findByPk_rows (d_agreementReference d) rows) as [old|].
  - apply findByPk_updateRows_other. now rewrite agreementReference_upsertInstance.
  - rewrite findByPk_rows_app_either.
    destruct (findByPk_rows i rows); [reflexivity|]. unfold findByPk_rows. simpl.
    assert (H : hasPk i (upsertInstance d rows) = false).
    { apply hasPk_false. now rewrite agreementReference_upsertInstance. }
    now rewrite H.
Qed.

(** X5. Frame: a handler of the agreement events changes no Agreement but
    the one the event is about (the derived id for NewAgreement, the
    event's agreementReference otherwise): a lookup of any other id finds
    what it found before, whatever the event, the options and the outcome
    of the handler are. *)
Theorem agreement_handlers_touch_one_agreement
    (ev : BlockchainEvent) (o : option Options) (w : World) (i : string) :
  touched soliditySha3 ev <> Some i ->
  findByPk_rows i (agreements (snd (process (agreement hexToAscii soliditySha3) ev o w)))
  = findByPk_rows i (agreements w).
Proof.
  intros Hne.
  destruct (agreement_process_shape ev o w)
    as [-> | [[j [b [a' [Ht [_ [Hk [_ ->]]]]]]] | [e [Hname ->]]]].
  - reflexivity.
  - apply findByPk_updateRows_other. rewrite Hk. intros ->. now apply Hne.
  - apply upsertRows_other. intros Heq. apply Hne. unfold touched.
    rewrite <- Hname, String.eqb_refl. now rewrite <- Heq.
Qed.

(** X6. The agreement handlers keep the primary key of the table and never
    delete: after any event the table still has one row per id, every id
    that was in the table is still there, and at most one row was added. *)
Theorem agreement_handlers_keep_primary_key
    (ev : BlockchainEvent) (o : option Options) (w : World) :
  pkUnique (agreements w) ->
  let rows' := agreements (snd (process (agreement hexToAscii soliditySha3) ev o w)) in
  pkUnique rows'
  /\ incl (map agreementReference (agreements w)) (map agreementReference rows')
  /\ (List.length (agreements w) <= List.length rows' <= S (List.length (agreements w)))%nat.
Proof.
  intros Hu rows'. subst rows'.
  destruct (agreement_process_shape ev o w)
    as [-> | [[j [b [a' [_ [_ [_ [_ ->]]]]]]] | [e [_ ->]]]].
  - split; [exact Hu|]. split; [apply incl_refl | lia].
  - split; [now apply pkUnique_updateRows|].
    rewrite updateRows_keys. split; [apply incl_refl|].
    rewrite <- (length_map agreementReference (updateRows _ _)), updateRows_keys, length_map.
    lia.
  - split; [now apply upsertRows_pkUnique|]. unfold upsertRows.
    destruct (findByPk_rows _ (agreements w)).
    + rewrite updateRows_keys. split; [apply incl_refl|].
      rewrite <- (length_map agreementReference (updateRows _ _)), updateRows_keys,
        length_map. lia.
    + rewrite map_app, length_app. simpl. split; [apply incl_appl, incl_refl | lia].
Qed.

(** X7. NewAgreement overwrites the record of the Agreement with the values
    of the event: after the handler has run with a chain handle, the row of
    the derived id carries the event's consumer, provider, size, billing
    period, billing price and available funds, the decoded data reference,
    no expiry block and the timestamp of the event's block as last payout,
    whatever the row held before (a replay after deposits resets the
    funds). *)
Theorem NewAgreement_overwrites_record
    (ev : BlockchainEvent) (m : option ProviderManager) (e : Eth) (w : World) :
  exists a,
    findByPk_rows (referenceOf soliditySha3 ev)
      (agreements (snd (NewAgreement hexToAscii soliditySha3 ev (mkOptions m (Some e)) w)))
    = Some a
    /\ agreementReference a = referenceOf soliditySha3 ev
    /\ dataReference a = decodeByteArray hexToAscii (rv_dataReference (returnValues ev))
    /\ consumer a = agreementCreator (returnValues ev)
    /\ offerId a = provider (returnValues ev)
    /\ size a = rv_size (returnValues ev)
    /\ billingPeriod a = rv_billingPeriod (returnValues ev)
    /\ billingPrice a = rv_billingPrice (returnValues ev)
    /\ availableFunds a = rv_availableFunds (returnValues ev)
    /\ expiredAtBlockNumber a = None
    /\ lastPayout a = blockTimestamp e (blockNumber ev).
Proof.
  rewrite NewAgreement_agreements.
  exists (upsertInstance (dataOf hexToAscii soliditySha3 ev e) (agreements w)).
  split.
  - exact (upsertRows_found (dataOf hexToAscii soliditySha3 ev e) (agreements w)).
  - unfold upsertInstance.
    destruct (findByPk_rows _ (agreements w)); simpl; repeat split.
Qed.

(** X8. When the pin of a creation fails, the Agreement stays stored: the
    handler raises the error of the pin, the row of the derived id is the
    upserted one, exactly one pin request was made (decoded data reference,
    the agreement's size, the id) and no agreement-created notification is
    broadcast. *)
Theorem NewAgreement_pin_failure_keeps_agreement
    (ev : BlockchainEvent) (m : ProviderManager) (e : Eth) (w : World) (err : JsError) :
  let d := dataOf hexToAscii soliditySha3 ev e in
  pinOutcome m (atPin hexToAscii soliditySha3 ev e w)
    (d_dataReference d) (d_size d) (Some (d_agreementReference d)) = Some err ->
  let r := NewAgreement hexToAscii soliditySha3 ev (mkOptions (Some m) (Some e)) w in
  fst r = Rejected err
  /\ findByPk_rows (d_agreementReference d) (agreements (snd r))
     = Some (upsertInstance d (agreements w))
  /\ pinRequests (effectsSince w (snd r))
     = [PinRequest (d_dataReference d) (d_size d) (Some (d_agreementReference d))]
  /\ broadcasts (effectsSince w (snd r)) = [].
Proof.
  intros d Hpin r. subst r.
  assert (Hr : NewAgreement hexToAscii soliditySha3 ev (mkOptions (Some m) (Some e)) w
               = (Rejected err, atPin hexToAscii soliditySha3 ev e w)).
  { unfold NewAgreement, atPin in *. subst d. async.
    assert (Hsz : forall rows,
               size (upsertInstance (dataOf hexToAscii soliditySha3 ev e) rows)
               = rv_size (returnValues ev)).
    { intros rows. unfold upsertInstance. now destruct (findByPk_rows _ rows). }
    assert (Hk : forall rows,
               agreementReference (upsertInstance (dataOf hexToAscii soliditySha3 ev e) rows)
               = referenceOf soliditySha3 ev).
    { intros rows. unfold upsertInstance. now destruct (findByPk_rows _ rows). }
    unfold dataOf, referenceOf in *. simpl in *.
    rewrite Hsz, Hk. rewrite <- !app_assoc. simpl. rewrite Hpin. reflexivity. }
  rewrite Hr. unfold atPin. fold d. simpl. rewrite effectsSince_app.
  repeat split. exact (upsertRows_found d (agreements w)).
Qed.

Lemma effectsSince_same (w : World) (rows : list Agreement) :
  effectsSince w (mkWorld rows (effects w)) = [].
Proof.
  unfold effectsSince. simpl. apply skipn_all.
Qed.

(** X9. The three fund handlers only save: whatever the amounts are, no
    pin request, no unpin request and no notification is issued, and no
    Agreement changes its isActive flag (a withdrawal or payout below zero
    neither deactivates nor unpins). *)
Theorem fund_events_only_save (ev : BlockchainEvent) (o : option Options) (w : World) :
  isFundEvent ev = true ->
  let r := process (agreement hexToAscii soliditySha3) ev o w in
  filter isRequestOrBroadcast (effectsSince w (snd r)) = []
  /\ forall i a,
       findByPk_rows i (agreements w) = Some a ->
       exists a', findByPk_rows i (agreements (snd r)) = Some a'
                  /\ isActive a' = isActive a.
Proof.
  intros Hev. destruct ev as [name bn rv]. unfold isFundEvent, includes in Hev.
  simpl in Hev.
  assert (Hname : name = "AgreementFundsDeposited" \/ name = "AgreementFundsWithdrawn"
                  \/ name = "AgreementFundsPayout").
  { rewrite !orb_true_iff, !String.eqb_eq in Hev. intuition congruence. }
  clear Hev. unfold agreement, buildHandler.
  destruct w as [rows effs].
  destruct Hname as [-> | [-> | ->]]; simpl;
    unfold AgreementFundsDeposited, AgreementFundsWithdrawn, AgreementFundsPayout;
    async;
    (destruct (rv_agreementReference rv) as [j|]; simpl;
     [ destruct (findByPk_rows j rows) as [b|] eqn:Hj; simpl;
       [ try (destruct (eth match o with Some x => x | None => noOptions end); simpl)
       | ]
     | ]);
    try (split;
         [ unfold effectsSince; cbn [effects]; rewrite skipn_all; reflexivity
         | intros i a Hf; exists a; split; [exact Hf | reflexivity] ]);
    (split;
     [ unfold effectsSince; cbn [effects];
       rewrite <- app_assoc, skipn_app, skipn_all, Nat.sub_diag; reflexivity
     | intros i a Hf;
       match goal with
       | |- context [updateRows ?a' _] =>
           destruct (findByPk_after_update i j a b a' rows Hf Hj eq_refl)
             as [Hupd Hsame];
           rewrite Hupd; clear Hupd
       end;
       destruct (String.eqb j i);
       [ rewrite <- (Hsame eq_refl); eexists; split; reflexivity
       | exists a; split; reflexivity ] ]).
Qed.

(** X10. A missing Agreement: each of the four handlers that look the
    Agreement up rejects with an EventError that quotes the id, before it
    changes or requests anything and whatever the options are; the error of
    AgreementFundsPayout names the event AgreementFundsWithdrawn. *)
Theorem handlers_reject_missing_agreement
    (ev : BlockchainEvent) (o : Options) (w : World) :
  agreementKnown ev w = false ->
  let msg := "Agreement with ID " ++ showOpt (rv_agreementReference (returnValues ev))
             ++ " was not found!" in
  AgreementStopped ev o w = (Rejected (EventError msg "AgreementStopped"), w)
  /\ AgreementFundsDeposited ev o w
     = (Rejected (EventError msg "AgreementFundsDeposited"), w)
  /\ AgreementFundsWithdrawn ev o w
     = (Rejected (EventError msg "AgreementFundsWithdrawn"), w)
  /\ AgreementFundsPayout ev o w
     = (Rejected (EventError msg "AgreementFundsWithdrawn"), w).
Proof.
  intros Hk msg. subst msg. unfold agreementKnown in Hk.
  assert (Hfind : match rv_agreementReference (returnValues ev) with
                  | Some i => findByPk_rows i (agreements w)
                  | None => None
                  end = None).
  { destruct (rv_agreementReference (returnValues ev)) as [i|]; [|reflexivity].
    destruct (findByPk_rows i (agreements w)); [discriminate | reflexivity]. }
  unfold AgreementStopped, AgreementFundsDeposited, AgreementFundsWithdrawn,
    AgreementFundsPayout, notFound.
  async. rewrite Hfind. repeat split.
Qed.

Lemma Forall_updateRows (P : Agreement -> Prop) (a : Agreement) (rows : list Agreement) :
  P a -> Forall P rows -> Forall P (updateRows a rows).
Proof.
  intros Ha Hrows. unfold updateRows. induction Hrows as [|r rows Hr _ IH]; simpl.
  - constructor.
  - constructor; [destruct (hasPk _ r); assumption | exact IH].
Qed.

Lemma errorHandler_world_agreements (fn : Processor) (logger : string)
    (ev : BlockchainEvent) (w : World) :
  agreements (snd (errorHandler fn logger ev w)) = agreements (snd (fn ev w)).
Proof.
  rewrite errorHandler_resolves. destruct (fn ev w) as [[[]|e] w']; reflexivity.
Qed.

(** X11. Only Agreements of this node's offer enter the table: when every
    stored Agreement carries the offer id, it is still so after the filter
    and the pipeline of the agreement handlers have processed any event (a
    NewAgreement of another provider is dropped, the other handlers keep
    the offer of the row they overwrite). *)
Theorem processor_stores_own_offer_only (oid : string) (lg : option string)
    (deps : option Options) (ev : BlockchainEvent) (w : World) :
  allOfOffer oid (agreements w) ->
  allOfOffer oid
    (agreements
       (snd (filterBlockchainEvents oid
               (getProcessor [agreement hexToAscii soliditySha3] (defaultBoundary lg deps))
               ev w))).
Proof.
  intros Hall. rewrite filterBlockchainEvents_eval.
  destruct (isEventWithProvider ev && providerIs oid ev
            || startsWith (event ev) "Agreement" && agreementKnown ev w) eqn:Hc;
    [|exact Hall].
  unfold getProcessor, defaultBoundary. simpl.
  rewrite errorHandler_world_agreements.
  pose proof (getProcessor_processor_world [agreement hexToAscii soliditySha3] lg deps ev
                (withEffects [gotLog ev] w)) as Hw.
  unfold defaultBoundary in Hw. rewrite Hw. clear Hw.
  unfold listed. cbn [filter].
  destruct (includes (events (agreement hexToAscii soliditySha3)) (event ev));
    [|exact Hall].
  unfold runAll. cbn [fold_left].
  destruct (agreement_process_shape ev deps (withEffects [gotLog ev] w))
    as [-> | [[j [b [a' [_ [Hb [_ [Ho ->]]]]]]] | [e [Hname ->]]]];
    cbn [withEffects agreements] in *.
  - exact Hall.
  - apply Forall_updateRows; [|exact Hall].
    rewrite Ho. destruct (findByPk_rows_Some _ _ _ Hb) as [_ Hin].
    exact (proj1 (Forall_forall _ _) Hall b Hin).
  - assert (Hprov : provider (returnValues ev) = Some oid).
    { rewrite <- Hname in Hc. cbn [startsWith] in Hc.
      change (String.prefix "Agreement" "NewAgreement") with false in Hc.
      rewrite andb_false_l, orb_false_r in Hc.
      apply andb_true_iff in Hc. destruct Hc as [_ Hp]. unfold providerIs in Hp.
      destruct (provider (returnValues ev)) as [p|]; [|discriminate].
      apply String.eqb_eq in Hp. now subst p. }
    assert (Ho : offerId (upsertInstance (dataOf hexToAscii soliditySha3 ev e)
                            (agreements w)) = Some oid).
    { unfold upsertInstance. destruct (findByPk_rows _ (agreements w)); exact Hprov. }
    unfold upsertRows. destruct (findByPk_rows _ (agreements w)) eqn:Hf.
    + apply Forall_updateRows; assumption.
    + apply Forall_app. split; [exact Hall | constructor; [exact Ho | constructor]].
Qed.

End FurtherHandlers.

(* ------------------------------------------------------------------ *)
(** ** [BlockchainEventsProcessor], after the queue *)

Section FurtherProcessorRuns.

Variable hexToAscii : string -> string.
Variable soliditySha3 : list string -> string.
Variable offer : EventsHandler.
Variable hasSufficientFunds : Agreement -> bool.
Variable offerId : string.
Variable manager : ProviderManager.
Variable eth : Eth.

Local Abbreviation processor :=
  (this_processor hexToAscii soliditySha3 offer offerId manager eth).
Local Abbreviation emit' :=
  (emit hexToAscii soliditySha3 offer hasSufficientFunds offerId manager eth).
Local Abbreviation emitAll' :=
  (emitAll hexToAscii soliditySha3 offer hasSufficientFunds offerId manager eth).

(** The state after the handoff: the live listeners when the pinning of the
    valid Agreements resolved, no listener of newEvent at all when it
    rejected. *)
Lemma handoff_state (options : option AppOptions) (lastFetched : option Z)
    (evs : list BlockchainEvent) (w : World) :
  truthyNumber lastFetched = false ->
  truthyBool (forcePrecacheOf options) = false ->
  emit' InitFinished (emitAll' (map NewEvent evs) (run options (initialState lastFetched w)))
  = match precache_end hasSufficientFunds manager
            (dispatchAll processor evs (withEffects [populatingLog] w)) with
    | (Resolved _, w') =>
        mkState true [ProcessorListener] 1 1 1 evs (Done (Resolved tt)) lastFetched w'
    | (Rejected e, w') =>
        mkState true [] 1 0 0 evs (Done (Rejected e)) lastFetched w'
    end.
Proof.
  intros Hl Hf.
  rewrite (run_precaches options lastFetched w Hl Hf), emitAll_queues. simpl.
  pose proof (drainQueue_dispatchAll processor
                (this_processor_fst hexToAscii soliditySha3 offer offerId manager eth) evs
                (withEffects [populatingLog] w)) as Hdrain.
  unfold onInitFinished, onAsync. simpl. unfold populatingLog in *. rewrite Hdrain. simpl.
  destruct (precache_end hasSufficientFunds manager _) as [[[]|e] w']; reflexivity.
Qed.

(** X12. The listener of initFinished stays registered after the handoff:
    a second initFinished signal that arrives when the handoff has ended
    dispatches every event of the queue again, in the same order, on top of
    the world the handoff left. *)
Theorem second_initFinished_dispatches_queue_again
    (options : option AppOptions) (lastFetched : option Z)
    (evs : list BlockchainEvent) (w : World) :
  truthyNumber lastFetched = false ->
  truthyBool (forcePrecacheOf options) = false ->
  let st2 := emit' InitFinished
               (emitAll' (map NewEvent evs) (run options (initialState lastFetched w))) in
  world (emit' InitFinished st2) = dispatchAll processor evs (world st2)
  /\ runPromise (emit' InitFinished st2) = runPromise st2.
Proof.
  intros Hl Hf st2. subst st2. rewrite (handoff_state options lastFetched evs w Hl Hf).
  pose proof (drainQueue_dispatchAll processor
                (this_processor_fst hexToAscii soliditySha3 offer offerId manager eth) evs)
    as Hdrain.
  destruct (precache_end hasSufficientFunds manager _) as [[[]|e] w'];
    simpl; unfold onInitFinished, onAsync; simpl; rewrite Hdrain; split; reflexivity.
Qed.

Lemma onInitFinished_steps (st : ProcessorState) :
  onInitFinished hexToAscii soliditySha3 offer hasSufficientFunds offerId manager eth st
  = onInitFinished_settle hexToAscii soliditySha3 offer hasSufficientFunds offerId manager
      eth (onInitFinished_off st).
Proof. reflexivity. Qed.

(** X13. The window of the handoff: from the moment the listener of
    initFinished has removed the queueing listener until run registers
    this.processor, the emitter has no listener of newEvent. Whatever the
    handoff has done so far, an event that arrives then is lost: it is
    neither queued nor dispatched and leaves the state as it was, so the
    handoff ends in the state it reaches without that event. *)
Theorem event_during_handoff_is_lost
    (options : option AppOptions) (lastFetched : option Z)
    (evs : list BlockchainEvent) (w : World) (soFar : Async unit) (ev : BlockchainEvent) :
  truthyNumber lastFetched = false ->
  truthyBool (forcePrecacheOf options) = false ->
  let st1 := emitAll' (map NewEvent evs) (run options (initialState lastFetched w)) in
  let window := snd (onAsync soFar (onInitFinished_off st1)) in
  newEventListeners window = []
  /\ runPromise window = Pending
  /\ dataQueue window = evs
  /\ emit' (NewEvent ev) window = window
  /\ onInitFinished_settle hexToAscii soliditySha3 offer hasSufficientFunds offerId manager
       eth (emit' (NewEvent ev) (onInitFinished_off st1))
     = emit' InitFinished st1.
Proof.
  intros Hl Hf st1 window. subst st1 window.
  rewrite (run_precaches options lastFetched w Hl Hf), emitAll_queues.
  unfold onAsync, onInitFinished_off. simpl.
  destruct (soFar _) as [r w']. simpl. repeat split.
Qed.

(** X14. When the pinning of the valid Agreements rejects, run rejects with
    that error and no listener of newEvent is left: every event that
    arrives afterwards is ignored. *)
Theorem precache_pin_failure_leaves_no_listener
    (options : option AppOptions) (lastFetched : option Z)
    (evs : list BlockchainEvent) (w : World) (e : JsError) (ev : BlockchainEvent) :
  truthyNumber lastFetched = false ->
  truthyBool (forcePrecacheOf options) = false ->
  fst (precache_end hasSufficientFunds manager
         (dispatchAll processor evs (withEffects [populatingLog] w))) = Rejected e ->
  let st2 := emit' InitFinished
               (emitAll' (map NewEvent evs) (run options (initialState lastFetched w))) in
  runPromise st2 = Done (Rejected e)
  /\ newEventListeners st2 = []
  /\ emit' (NewEvent ev) st2 = st2.
Proof.
  intros Hl Hf Hpin st2. subst st2. rewrite (handoff_state options lastFetched evs w Hl Hf).
  destruct (precache_end hasSufficientFunds manager _) as [[[]|e'] w'];
    simpl in Hpin; [discriminate|].
  injection Hpin as ->. repeat split.
Qed.

Lemma pinValid_all_succeed (rows : list Agreement) :
  (forall w h sz r, pinOutcome manager w h sz r = None) ->
  forall w,
    pinValid hasSufficientFunds manager rows w
    = (Resolved tt,
       withEffects (map repinRequest (filter hasSufficientFunds rows)) w).
Proof.
  intros Hok. induction rows as [|a rows IH]; intros w.
  - unfold withEffects. simpl. unfold resolve. rewrite app_nil_r. now destruct w.
  - cbn [pinValid filter]. unfold await at 1.
    destruct (hasSufficientFunds a).
    + unfold manager_pin. async. rewrite Hok. simpl. rewrite IH.
      unfold withEffects, repinRequest. simpl. rewrite <- app_assoc. reflexivity.
    + unfold resolve at 1. apply IH.
Qed.

(** X15. The pinning after the queue: with a provider manager whose pins
    succeed, precache requests a pin for exactly the Agreements the model
    reports as sufficiently funded, once each and in the order of the table,
    passing the data reference and the size but no agreement reference; the
    table is not touched. *)
Theorem precache_end_pins_funded_agreements (w : World) :
  (forall w0 h sz r, pinOutcome manager w0 h sz r = None) ->
  precache_end hasSufficientFunds manager w
  = (Resolved tt,
     withEffects
       (pinningLog :: map repinRequest (filter hasSufficientFunds (agreements w))) w).
Proof.
  intros Hok. unfold precache_end. async.
  rewrite (pinValid_all_succeed (agreements w) Hok).
  unfold withEffects, pinningLog. simpl. rewrite <- app_assoc. reflexivity.
Qed.

End FurtherProcessorRuns.

(** X16. When run precaches: exactly when the store holds no
    lastFetchedBlockNumber, or holds 0, and forcePrecache is not true. In
    this case the two listeners of precache are registered and run is
    pending; in every other case the live listeners are attached and run
    has resolved. *)
Theorem run_precaches_iff (options : option AppOptions) (lastFetched : option Z)
    (w : World) :
  let st := run options (initialState lastFetched w) in
  ((lastFetched = None \/ lastFetched = Some 0) /\ forcePrecacheOf options <> Some true
   -> newEventListeners st = [DataQueuePusher]
      /\ initFinishedListeners st = 1%nat /\ runPromise st = Pending)
  /\ (~ ((lastFetched = None \/ lastFetched = Some 0)
          /\ forcePrecacheOf options <> Some true)
      -> newEventListeners st = [ProcessorListener]
         /\ initFinishedListeners st = 0%nat /\ runPromise st = Done (Resolved tt)).
Proof.
  intros st. subst st.
  assert (Hl : truthyNumber lastFetched = false
               <-> (lastFetched = None \/ lastFetched = Some 0)).
  { destruct lastFetched as [z|]; simpl.
    - rewrite negb_false_iff, Z.eqb_eq. split; [intros ->; now right|].
      intros [H|H]; [discriminate | now injection H].
    - split; [now left | reflexivity]. }
  assert (Hf : truthyBool (forcePrecacheOf options) = false
               <-> forcePrecacheOf options <> Some true).
  { destruct (forcePrecacheOf options) as [[|]|]; simpl;
      split; try congruence; try discriminate. }
  split.
  - intros [H1 H2]. apply Hl in H1. apply Hf in H2.
    rewrite (run_precaches options lastFetched w H1 H2). repeat split.
  - intros Hnot. unfold run, initialState. simpl.
    fold (forcePrecacheOf options).
    destruct (truthyNumber lastFetched) eqn:E1; simpl.
    + repeat split.
    + destruct (truthyBool (forcePrecacheOf options)) eqn:E2; simpl.
      * repeat split.
      * exfalso. apply Hnot. split; [now apply Hl | now apply Hf].
Qed.

(* ------------------------------------------------------------------ *)
(** ** [src/providers/ipfs.ts] *)

Lemma substring_all (s : string) : substring 0 (String.length s) s = s.
Proof.
  induction s as [|c s IH]; simpl; [reflexivity | now rewrite IH].
Qed.

Lemma removeFirst_ipfs_prefix (c : string) : removeFirst "/ipfs/" ("/ipfs/" ++ c) = c.
Proof.
  assert (Hp : String.prefix "" c = true) by (destruct c; reflexivity).
  unfold removeFirst. cbn. rewrite Hp. cbn. rewrite Nat.sub_0_r. apply substring_all.
Qed.

(** X17. The '/ipfs/' path prefix is stripped before the CID is built:
    unpinning '/ipfs/' followed by any text calls pin.rm with the CID of
    that text (a failure of the CID constructor is the outcome), and the
    hash is logged as it was given. *)
Theorem IpfsProvider_unpin_strips_prefix (ipfs : IpfsClient)
    (pin_rm : string -> option JsError) (c : string) :
  IpfsProvider_unpin ipfs pin_rm ("/ipfs/" ++ c)
  = ([Log ipfsLogger LInfo (LogText ("Unpinning hash: /ipfs/" ++ c))],
     match newCID ipfs c with
     | inl e => Some e
     | inr cid => pin_rm cid
     end).
Proof.
  unfold IpfsProvider_unpin. rewrite removeFirst_ipfs_prefix.
  destruct (newCID ipfs c); reflexivity.
Qed.

Section FurtherPinJob.

Variable bytesToMegabytes : Z -> Q.
Variable showBigNumber : Q -> string.
Variable ipfs : IpfsClient.
Variable expectedSize : Z.

(** X18. Content that does not exceed the paid size, the paid size itself
    included, is pinned: when the size in megabytes is at most the expected
    size, the body of the pin job goes on to pin.add with the CID of the
    hash without its '/ipfs/' prefix, and the outcome of pin.add is the
    outcome of the body. *)
Theorem PinJob_run_within_size (c : string) (i : nat) (cid : string)
    (cumulativeSize : Z) :
  newCID ipfs c = inr cid ->
  object_stat ipfs i cid = inr cumulativeSize ->
  (bytesToMegabytes cumulativeSize <= inject_Z expectedSize)%Q ->
  snd (PinJob_run bytesToMegabytes showBigNumber ipfs ("/ipfs/" ++ c) expectedSize i)
  = pin_add ipfs i cid.
Proof.
  intros Hcid Hstat Hle. unfold PinJob_run.
  rewrite removeFirst_ipfs_prefix, Hcid, Hstat. unfold gt.
  apply Qle_bool_iff in Hle. rewrite Hle. reflexivity.
Qed.

(** X19. A failure of the size lookup: a TimeoutError becomes a plain Error
    'Fetching size of <hash> timed out!', which is not a non-recoverable
    failure; any other error is raised as it is. *)
Theorem PinJob_run_stat_failure (hash : string) (i : nat) (cid : string) (e : JsError) :
  newCID ipfs (removeFirst "/ipfs/" hash) = inr cid ->
  object_stat ipfs i cid = inl e ->
  let outcome := snd (PinJob_run bytesToMegabytes showBigNumber ipfs hash expectedSize i) in
  (err_name e = "TimeoutError" ->
   outcome = Some (Error ("Fetching size of " ++ removeFirst "/ipfs/" hash ++ " timed out!"))
   /\ (forall err, outcome = Some err -> isNonRecoverable err = false))
  /\ (err_name e <> "TimeoutError" -> outcome = Some e).
Proof.
  intros Hcid Hstat outcome. subst outcome. unfold PinJob_run. rewrite Hcid, Hstat.
  split.
  - intros Hn. apply String.eqb_eq in Hn. rewrite Hn. simpl.
    split; [reflexivity|]. intros err Herr. injection Herr as <-. reflexivity.
  - intros Hn. apply String.eqb_neq in Hn. rewrite Hn. reflexivity.
Qed.

End FurtherPinJob.

(* ------------------------------------------------------------------ *)
(** ** The job manager, any job *)

Lemma persist_invocations (job : Job) (st : JobState) (msg : option string) (w : JobWorld) :
  invocations (persist job st msg w) = invocations w.
Proof. reflexivity. Qed.

Lemma Job_run_invocations (job : Job) (w : JobWorld) :
  (invocations w <= invocations (snd (Job_run job w)) <= S (invocations w))%nat.
Proof.
  unfold Job_run. destruct (hookOutcome (pre job)); simpl; [lia|].
  destruct (_run job (invocations w)) as [effs [e|]]; simpl; [lia|].
  destruct (hookOutcome (after job)); simpl; lia.
Qed.

Lemma Job_run_state (job : Job) (w : JobWorld) :
  exists m, entity (snd (Job_run job w)) = Some m
            /\ state m = match fst (Job_run job w) with
                         | Resolved _ => FINISHED
                         | Rejected _ => ERRORED
                         end.
Proof.
  unfold Job_run. destruct (hookOutcome (pre job)); simpl;
    [eexists; split; reflexivity|].
  destruct (_run job (invocations w)) as [effs [e|]]; simpl;
    [eexists; split; reflexivity|].
  destruct (hookOutcome (after job)); simpl; eexists; split; reflexivity.
Qed.

Lemma attempts_invocations (left : nat) :
  forall (attempt total : nat) (job : Job) (w : JobWorld),
    (invocations w <= invocations (snd (attempts left attempt total job w))
     <= invocations w + S left)%nat.
Proof.
  induction left as [|left IH]; intros attempt total job w; simpl;
    pose proof (Job_run_invocations job
                  (jobPerform (Broadcast I_HASH_START (PHash (name job))) w)) as Hrun;
    destruct (Job_run job _) as [[[]|e] w1]; simpl in *; try lia;
    destruct (isNonRecoverable e); simpl; try lia.
  match goal with |- context [attempts left ?a ?t job ?w2] =>
    specialize (IH a t job w2) end.
  simpl in IH. lia.
Qed.

Lemma attempts_terminal_state (left : nat) :
  forall (attempt total : nat) (job : Job) (w : JobWorld),
    exists m, entity (snd (attempts left attempt total job w)) = Some m
              /\ state m = match fst (attempts left attempt total job w) with
                           | Resolved _ => FINISHED
                           | Rejected _ => ERRORED
                           end.
Proof.
  induction left as [|left IH]; intros attempt total job w; simpl;
    pose proof (Job_run_state job
                  (jobPerform (Broadcast I_HASH_START (PHash (name job))) w)) as Hrun;
    destruct (Job_run job _) as [[[]|e] w1]; simpl in *;
    try exact Hrun;
    destruct (isNonRecoverable e); simpl;
    try (eexists; split; reflexivity).
  apply IH.
Qed.

(** X20. Bounded retries: whatever the job does (body and hooks), a run of
    the manager invokes the body at most as many times as the retry ceiling
    (once for a ceiling of 0), and it ends with the persisted Job record
    FINISHED when it resolves and ERRORED when it rejects. *)
Theorem JobsManager_run_bounded (n : nat) (job : Job) (w : JobWorld) :
  let r := JobsManager_run (mkJobsManager n) job None w in
  (invocations w <= invocations (snd r) <= invocations w + Nat.max 1 n)%nat
  /\ exists m, entity (snd r) = Some m
               /\ state m = match fst r with
                            | Resolved _ => FINISHED
                            | Rejected _ => ERRORED
                            end.
Proof.
  intros r. subst r. unfold JobsManager_run. cbn [retries]. split.
  - pose proof (attempts_invocations (Nat.pred n) 1 n job w) as H.
    destruct n as [|n]; simpl Nat.pred in *; [exact H|].
    rewrite Nat.max_r by lia. exact H.
  - apply attempts_terminal_state.
Qed.

Section ExhaustedRetries.

Variable jobName : string.
Variable body : nat -> list Effect * option JsError.
Variables preHook afterHook : option (option JsError).
Hypothesis preHook_succeeds : hookOutcome preHook = None.
Hypothesis afterHook_succeeds : hookOutcome afterHook = None.

Local Abbreviation job := (mkJob jobName preHook body afterHook).

Lemma attempts_exhausted (attempt total : nat) (w : JobWorld) (e : JsError) :
  snd (body (invocations w)) = Some e ->
  isNonRecoverable e = false ->
  attempts 0 attempt total job w
  = (Rejected e,
     jobPerform (Broadcast E_GENERAL (PError jobName (err_message e)))
       (persist job ERRORED (Some (err_message e))
          (persist job ERRORED (Some (err_message e))
             (mkJobWorld
                (entity (persist job RUNNING None
                           (jobPerform (Broadcast I_HASH_START (PHash jobName)) w)))
                (S (invocations w))
                ((jobEffects w ++ [Broadcast I_HASH_START (PHash jobName)])
                 ++ fst (body (invocations w))))))).
Proof.
  intros Hb Hrec. simpl.
  rewrite (Job_run_eval jobName body preHook afterHook preHook_succeeds afterHook_succeeds).
  simpl. rewrite Hb, Hrec. reflexivity.
Qed.

(** X21. Retries exhausted: when the body fails recoverably on each of the
    first [n] invocations, [n] being the ceiling, the run rejects with the
    error of the last invocation after exactly [n] invocations; the Job
    record ends ERRORED with that error's message and the retry mark
    [n - 1] of [n], and the last notification is the general failure. *)
Theorem JobsManager_run_retries_exhausted (n : nat) :
  (1 <= n)%nat ->
  (forall i, (i < n)%nat -> failsRecoverably (snd (body i))) ->
  let r := JobsManager_run (mkJobsManager n) job None newJobWorld in
  exists e,
    snd (body (n - 1)%nat) = Some e
    /\ fst r = Rejected e
    /\ invocations (snd r) = n
    /\ (exists m, entity (snd r) = Some m
                  /\ state m = ERRORED
                  /\ errorMessage m = Some (err_message e)
                  /\ retry m = if (n =? 1)%nat then None else Some ((n - 1)%nat, n))
    /\ lastEffect (snd r) = Some (Broadcast E_GENERAL (PError jobName (err_message e))).
Proof.
  intros Hn Hfail r. subst r. unfold JobsManager_run. simpl.
  destruct (Hfail (n - 1)%nat ltac:(lia)) as [e [He Hrec]].
  exists e. split; [exact He|].
  destruct (attempts_after_failures jobName body preHook afterHook
              preHook_succeeds afterHook_succeeds (n - 1) (Nat.pred n) 1 n newJobWorld)
    as [w' [Heq [Hinv [Hzero Hretry]]]].
  { intros i Hi. simpl. apply Hfail. lia. }
  { lia. }
  simpl in Hinv.
  replace (Nat.pred n - (n - 1))%nat with 0%nat in Heq by lia.
  rewrite Heq, (attempts_exhausted _ _ _ e) by (rewrite ?Hinv; assumption).
  simpl. rewrite Hinv.
  split; [reflexivity|]. split; [lia|]. split.
  - destruct (Nat.eq_dec n 1) as [-> | Hne].
    + rewrite (Hzero eq_refl). simpl. eexists. split; [reflexivity|]. simpl. auto.
    + destruct (Hretry ltac:(lia)) as [m [Hm [Hr _]]].
      unfold currentEntity. simpl. rewrite Hm. simpl.
      eexists. split; [reflexivity|]. simpl.
      apply Nat.eqb_neq in Hne. rewrite Hne, Hr.
      repeat split. repeat f_equal; lia.
  - apply lastEffect_jobPerform.
Qed.

End ExhaustedRetries.

(* ------------------------------------------------------------------ *)
(** ** [src/cli/agreements.ts] *)

Section FurtherQuery.

Variable hasSufficientFunds : Agreement -> bool.

Lemma fold_left_append_flat_map {A B : Type} (f : A -> list B) (l : list A) :
  forall acc, fold_left (fun acc a => (acc ++ f a)%list) l acc = (acc ++ flat_map f l)%list.
Proof.
  induction l as [|a l IH]; intros acc; simpl.
  - now rewrite app_nil_r.
  - rewrite IH. now rewrite <- app_assoc.
Qed.

Lemma filter_of_filter {A : Type} (p q : A -> bool) (l : list A) :
  (forall x, p x = true -> q x = true) ->
  filter p (filter q l) = filter p l.
Proof.
  intros Himp. induction l as [|x l IH]; simpl; [reflexivity|].
  destruct (q x) eqn:Eq; simpl.
  - destruct (p x); now rewrite IH.
  - destruct (p x) eqn:Ep; [|exact IH]. apply Himp in Ep. congruence.
Qed.

Lemma includes_In (l : list string) (x y : string) :
  In y l -> String.eqb x y = true -> includes l x = true.
Proof.
  intros Hin Heq. unfold includes. apply existsb_exists. exists y. now split.
Qed.

(** [queryAgreement] as a selection among the entries of the agreements. *)
Lemma queryAgreement_eval (filterStatus : option string) (ags : list Agreement)
    (jobTable : list JobModel) :
  queryAgreement hasSufficientFunds filterStatus ags jobTable
  = filter (fun x => (filterIs filterStatus "active" && isActive (awj_agreement x))
                     || (filterIs filterStatus "inactive"
                         && negb (isActive (awj_agreement x)))
                     || noFilter filterStatus)
      (map (entryOf hasSufficientFunds jobTable) ags).
Proof.
  unfold queryAgreement. rewrite fold_left_append_flat_map. simpl.
  assert (Hjobs : forall a, In a ags ->
            filter (fun j => String.eqb (job_name j) (dataReference a))
              (filter (fun j => includes (map dataReference ags) (job_name j)) jobTable)
            = filter (fun j => String.eqb (job_name j) (dataReference a)) jobTable).
  { intros a Hin. apply filter_of_filter. intros j Hj.
    apply includes_In with (y := dataReference a); [now apply in_map | exact Hj]. }
  revert Hjobs. generalize (filter (fun j => includes (map dataReference ags) (job_name j))
                              jobTable).
  intros found Hjobs.
  assert (Hall : forall l, (forall a, In a l -> In a ags) ->
            flat_map
              (fun agreement =>
                 if (filterIs filterStatus "active" && hasSufficientFunds agreement)
                    || (filterIs filterStatus "inactive"
                        && negb (hasSufficientFunds agreement))
                    || noFilter filterStatus
                 then [mkAgreementWithJobs
                         (set_isActive (hasSufficientFunds agreement) agreement)
                         (filter (fun j => String.eqb (job_name j) (dataReference agreement))
                            found)]
                 else []) l
            = filter (fun x => (filterIs filterStatus "active" && isActive (awj_agreement x))
                               || (filterIs filterStatus "inactive"
                                   && negb (isActive (awj_agreement x)))
                               || noFilter filterStatus)
                (map (entryOf hasSufficientFunds jobTable) l)).
  { induction l as [|a l IH]; intros Hsub; simpl; [reflexivity|].
    rewrite IH by (intros x Hx; apply Hsub; now right).
    rewrite (Hjobs a) by (apply Hsub; now left).
    destruct ((filterIs filterStatus "active" && hasSufficientFunds a)
              || (filterIs filterStatus "inactive" && negb (hasSufficientFunds a))
              || noFilter filterStatus); reflexivity. }
  apply Hall. auto.
Qed.

(** X22. Without a filter (none, or the empty string) queryAgreement
    returns one entry per Agreement, in the order of the table; the status
    of an entry is the Agreement's hasSufficientFunds, not the isActive
    flag stored for it, and its jobs are exactly the rows of the Job table
    named by its data reference, in the order of the query. *)
Theorem queryAgreement_unfiltered (filterStatus : option string) (ags : list Agreement)
    (jobTable : list JobModel) :
  noFilter filterStatus = true ->
  queryAgreement hasSufficientFunds filterStatus ags jobTable
  = map (entryOf hasSufficientFunds jobTable) ags
  /\ Forall2 (fun a x => isActive (awj_agreement x) = hasSufficientFunds a
                         /\ agreementReference (awj_agreement x) = agreementReference a
                         /\ jobs x = filter (fun j => String.eqb (job_name j) (dataReference a))
                                       jobTable)
       ags (queryAgreement hasSufficientFunds filterStatus ags jobTable).
Proof.
  intros Hno. rewrite queryAgreement_eval, Hno.
  assert (Hf : forall l : list AgreementWithJobs,
            filter (fun x => (filterIs filterStatus "active" && isActive (awj_agreement x))
                             || (filterIs filterStatus "inactive"
                                 && negb (isActive (awj_agreement x)))
                             || true) l = l).
  { induction l as [|x l IH]; simpl; [reflexivity|]. rewrite orb_true_r. now rewrite IH. }
  rewrite Hf. split; [reflexivity|].
  induction ags as [|a ags IH]; simpl; constructor; [repeat split | exact IH].
Qed.

(** X23. The status filter: 'active' keeps the entries whose Agreement has
    sufficient funds and 'inactive' the others, so the two answers split
    the unfiltered one and their lengths add up to the number of
    Agreements; any other non-empty filter value keeps nothing. *)
Theorem queryAgreement_filters (ags : list Agreement) (jobTable : list JobModel) :
  let all := queryAgreement hasSufficientFunds None ags jobTable in
  let active := queryAgreement hasSufficientFunds (Some "active") ags jobTable in
  let inactive := queryAgreement hasSufficientFunds (Some "inactive") ags jobTable in
  active = filter (fun x => isActive (awj_agreement x)) all
  /\ inactive = filter (fun x => negb (isActive (awj_agreement x))) all
  /\ (List.length active + List.length inactive = List.length ags)%nat
  /\ forall f, f <> "" -> f <> "active" -> f <> "inactive" ->
               queryAgreement hasSufficientFunds (Some f) ags jobTable = [].
Proof.
  intros all active inactive. subst all active inactive.
  split; [|split; [|split]].
  - rewrite !queryAgreement_eval. simpl.
    generalize (map (entryOf hasSufficientFunds jobTable) ags). intros l.
    induction l as [|x l IH]; simpl; [reflexivity|].
    destruct (isActive (awj_agreement x)); simpl; now rewrite IH.
  - rewrite !queryAgreement_eval. simpl.
    generalize (map (entryOf hasSufficientFunds jobTable) ags). intros l.
    induction l as [|x l IH]; simpl; [reflexivity|].
    destruct (isActive (awj_agreement x)); simpl; now rewrite IH.
  - rewrite !queryAgreement_eval. simpl.
    rewrite <- (length_map (entryOf hasSufficientFunds jobTable) ags).
    generalize (map (entryOf hasSufficientFunds jobTable) ags). intros l.
    induction l as [|x l IH]; simpl; [reflexivity|].
    destruct (isActive (awj_agreement x)); simpl; lia.
  - intros f H0 H1 H2. rewrite queryAgreement_eval. simpl.
    apply String.eqb_neq in H0, H1, H2. rewrite H0, H1, H2. simpl.
    generalize (map (entryOf hasSufficientFunds jobTable) ags). intros l.
    induction l as [|x l IH]; simpl; [reflexivity | exact IH].
Qed.

End FurtherQuery.

(* ------------------------------------------------------------------ *)
(** ** The further properties at sample inputs *)

Lemma decodeByteArray_padded_sample :
  decodeByteArray sample_hexToAscii ["QmData "; sample_padding] = "QmData ".
Proof.
  apply (decodeByteArray_padded sample_hexToAscii ["QmData "; sample_padding]
           "QmData " sample_padding).
  - reflexivity.
  - reflexivity.
  - reflexivity.
  - reflexivity.
  - left. discriminate.
Defined.

Lemma getProcessor_unlisted_event_ignored_sample :
  getProcessor [agreement sample_hexToAscii sample_soliditySha3] (defaultBoundary None None)
    sample_Transfer sample_world
  = (Resolved tt, sample_world).
Proof.
  exact (getProcessor_unlisted_event_ignored
           [agreement sample_hexToAscii sample_soliditySha3] None None
           sample_Transfer sample_world eq_refl).
Defined.

Lemma getProcessor_routes_to_listing_handler_sample :
  getProcessor [buildHandler [] ["Transfer"]; agreement sample_hexToAscii sample_soliditySha3]
    (defaultBoundary None None)
    (sample_event "AgreementFundsDeposited" 10 None (Some "0xA1") 100) sample_world
  = match process (agreement sample_hexToAscii sample_soliditySha3)
            (sample_event "AgreementFundsDeposited" 10 None (Some "0xA1") 100)
            None sample_world with
    | (Resolved _, w') => (Resolved tt, w')
    | (Rejected e, w') =>
        (Resolved tt, logged (getProcessor_logger (defaultBoundary None None)) e w')
    end.
Proof.
  exact (getProcessor_routes_to_listing_handler [buildHandler [] ["Transfer"]] []
           (agreement sample_hexToAscii sample_soliditySha3) None None
           (sample_event "AgreementFundsDeposited" 10 None (Some "0xA1") 100) sample_world
           eq_refl eq_refl).
Defined.

Lemma agreement_handlers_touch_one_agreement_sample :
  findByPk_rows "0xB2"
    (agreements
       (snd (process (agreement sample_hexToAscii sample_soliditySha3)
               (sample_event "AgreementFundsDeposited" 10 None (Some "0xA1") 100)
               None sample_world)))
  = findByPk_rows "0xB2" (agreements sample_world).
Proof.
  apply (agreement_handlers_touch_one_agreement sample_hexToAscii sample_soliditySha3).
  discriminate.
Defined.

Lemma agreement_handlers_keep_primary_key_sample :
  pkUnique
    (agreements
       (snd (process (agreement sample_hexToAscii sample_soliditySha3) sample_NewAgreement
               (Some (mkOptions None (Some sample_eth))) sample_world))).
Proof.
  assert (H : pkUnique (agreements sample_world)).
  { constructor; [intros [] | constructor]. }
  exact (proj1 (agreement_handlers_keep_primary_key sample_hexToAscii sample_soliditySha3
                  sample_NewAgreement (Some (mkOptions None (Some sample_eth)))
                  sample_world H)).
Defined.

Lemma NewAgreement_pin_failure_keeps_agreement_sample :
  fst (NewAgreement sample_hexToAscii sample_soliditySha3 sample_NewAgreement
         (mkOptions (Some pin_failing_manager) (Some sample_eth)) emptyWorld)
  = Rejected (Error "pin failed").
Proof.
  exact (proj1 (NewAgreement_pin_failure_keeps_agreement sample_hexToAscii
                  sample_soliditySha3 sample_NewAgreement pin_failing_manager sample_eth
                  emptyWorld (Error "pin failed") eq_refl)).
Defined.

Lemma fund_events_only_save_sample :
  filter isRequestOrBroadcast
    (effectsSince sample_world
       (snd (process (agreement sample_hexToAscii sample_soliditySha3)
               (sample_event "AgreementFundsWithdrawn" 11 None (Some "0xA1") 5000)
               None sample_world)))
  = [].
Proof.
  exact (proj1 (fund_events_only_save sample_hexToAscii sample_soliditySha3
                  (sample_event "AgreementFundsWithdrawn" 11 None (Some "0xA1") 5000)
                  None sample_world eq_refl)).
Defined.

Lemma handlers_reject_missing_agreement_sample :
  AgreementFundsPayout sample_AgreementStopped noOptions emptyWorld
  = (Rejected (EventError "Agreement with ID 0xA1 was not found!" "AgreementFundsWithdrawn"),
     emptyWorld).
Proof.
  exact (proj2 (proj2 (proj2 (handlers_reject_missing_agreement sample_AgreementStopped
                                noOptions emptyWorld eq_refl)))).
Defined.

Lemma processor_stores_own_offer_only_sample :
  allOfOffer "0x0FFE2"
    (agreements
       (snd (filterBlockchainEvents "0x0FFE2"
               (getProcessor [agreement sample_hexToAscii sample_soliditySha3]
                  (defaultBoundary None (Some (mkOptions None (Some sample_eth)))))
               sample_NewAgreement sample_world))).
Proof.
  assert (H : allOfOffer "0x0FFE2" (agreements sample_world)).
  { constructor; [reflexivity | constructor]. }
  exact (processor_stores_own_offer_only sample_hexToAscii sample_soliditySha3 "0x0FFE2"
           None (Some (mkOptions None (Some sample_eth))) sample_NewAgreement
           sample_world H).
Defined.

Lemma second_initFinished_dispatches_queue_again_sample :
  runPromise
    (emit sample_hexToAscii sample_soliditySha3 (buildHandler [] []) (fun _ => true)
       "0x0FFE2" sample_manager sample_eth InitFinished
       (emit sample_hexToAscii sample_soliditySha3 (buildHandler [] []) (fun _ => true)
          "0x0FFE2" sample_manager sample_eth InitFinished
          (emitAll sample_hexToAscii sample_soliditySha3 (buildHandler [] [])
             (fun _ => true) "0x0FFE2" sample_manager sample_eth
             (map NewEvent [sample_NewAgreement])
             (run None (initialState None emptyWorld)))))
  = runPromise
      (emit sample_hexToAscii sample_soliditySha3 (buildHandler [] []) (fun _ => true)
         "0x0FFE2" sample_manager sample_eth InitFinished
         (emitAll sample_hexToAscii sample_soliditySha3 (buildHandler [] [])
            (fun _ => true) "0x0FFE2" sample_manager sample_eth
            (map NewEvent [sample_NewAgreement])
            (run None (initialState None emptyWorld)))).
Proof.
  exact (proj2 (second_initFinished_dispatches_queue_again sample_hexToAscii
                  sample_soliditySha3 (buildHandler [] []) (fun _ => true) "0x0FFE2"
                  sample_manager sample_eth None None [sample_NewAgreement] emptyWorld
                  eq_refl eq_refl)).
Defined.

Lemma event_during_handoff_is_lost_sample :
  emit sample_hexToAscii sample_soliditySha3 (buildHandler [] []) (fun _ => true)
    "0x0FFE2" sample_manager sample_eth (NewEvent sample_AgreementStopped)
    (snd (onAsync (resolve tt)
            (onInitFinished_off
               (emitAll sample_hexToAscii sample_soliditySha3 (buildHandler [] [])
                  (fun _ => true) "0x0FFE2" sample_manager sample_eth
                  (map NewEvent [sample_NewAgreement])
                  (run None (initialState None emptyWorld))))))
  = snd (onAsync (resolve tt)
           (onInitFinished_off
              (emitAll sample_hexToAscii sample_soliditySha3 (buildHandler [] [])
                 (fun _ => true) "0x0FFE2" sample_manager sample_eth
                 (map NewEvent [sample_NewAgreement])
                 (run None (initialState None emptyWorld))))).
Proof.
  exact (proj1 (proj2 (proj2 (proj2
           (event_during_handoff_is_lost sample_hexToAscii sample_soliditySha3
              (buildHandler [] []) (fun _ => true) "0x0FFE2" sample_manager sample_eth
              None None [sample_NewAgreement] emptyWorld (resolve tt)
              sample_AgreementStopped eq_refl eq_refl))))).
Defined.

Lemma precache_pin_failure_leaves_no_listener_sample :
  newEventListeners
    (emit sample_hexToAscii sample_soliditySha3 (buildHandler [] []) (fun _ => true)
       "0x0FFE2" pin_failing_manager sample_eth InitFinished
       (emitAll sample_hexToAscii sample_soliditySha3 (buildHandler [] [])
          (fun _ => true) "0x0FFE2" pin_failing_manager sample_eth
          (map NewEvent [])
          (run None (initialState None sample_world))))
  = [].
Proof.
  exact (proj1 (proj2 (precache_pin_failure_leaves_no_listener sample_hexToAscii
                         sample_soliditySha3 (buildHandler [] []) (fun _ => true) "0x0FFE2"
                         pin_failing_manager sample_eth None None [] sample_world
                         (Error "pin failed") sample_Transfer eq_refl eq_refl eq_refl))).
Defined.

Lemma precache_end_pins_funded_agreements_sample :
  precache_end (fun a => 0 <? availableFunds a) sample_manager sample_world
  = (Resolved tt,
     withEffects [pinningLog; PinRequest "/ipfs/QmData" 5 None] sample_world).
Proof.
  apply (precache_end_pins_funded_agreements (fun a => 0 <? availableFunds a)
           sample_manager sample_world).
  intros. reflexivity.
Defined.

Lemma run_precaches_iff_sample :
  runPromise (run None (initialState (Some 0) emptyWorld)) = Pending
  /\ runPromise (run None (initialState (Some 1000) emptyWorld)) = Done (Resolved tt).
Proof.
  split.
  - apply (proj1 (run_precaches_iff None (Some 0) emptyWorld)).
    split; [now right | discriminate].
  - apply (proj2 (run_precaches_iff None (Some 1000) emptyWorld)).
    intros [[H | H] _]; discriminate.
Defined.

Lemma PinJob_run_within_size_sample :
  snd (PinJob_run sample_bytesToMegabytes (fun _ => "3") sample_ipfs "/ipfs/QmData" 3 0)
  = None.
Proof.
  apply (PinJob_run_within_size sample_bytesToMegabytes (fun _ => "3") sample_ipfs 3
           "QmData" 0 "QmData" 3145728).
  - reflexivity.
  - reflexivity.
  - unfold sample_bytesToMegabytes, Qle. simpl. lia.
Defined.

Lemma PinJob_run_stat_failure_sample :
  snd (PinJob_run sample_bytesToMegabytes (fun _ => "3") timeout_ipfs "/ipfs/QmData" 3 0)
  = Some (Error "Fetching size of QmData timed out!").
Proof.
  apply (proj1 (PinJob_run_stat_failure sample_bytesToMegabytes (fun _ => "3") timeout_ipfs
                  3 "/ipfs/QmData" 0 "QmData"
                  (ForeignError "TimeoutError" None "request timed out")
                  eq_refl eq_refl)).
  reflexivity.
Defined.

Lemma JobsManager_run_retries_exhausted_sample :
  exists e,
    fst (JobsManager_run (mkJobsManager 3) (mkJob "QmStub" None failing_stub None) None
           newJobWorld) = Rejected e
    /\ invocations
         (snd (JobsManager_run (mkJobsManager 3) (mkJob "QmStub" None failing_stub None)
                 None newJobWorld)) = 3%nat.
Proof.
  assert (Hn : (1 <= 3)%nat) by lia.
  assert (Hfail : forall i, (i < 3)%nat -> failsRecoverably (snd (failing_stub i))).
  { intros i _. exists (Error "testing"). split; reflexivity. }
  destruct (JobsManager_run_retries_exhausted "QmStub" failing_stub None None
              eq_refl eq_refl 3 Hn Hfail) as [e [_ [Hr [Hi _]]]].
  exists e. split; [exact Hr | exact Hi].
Defined.

Lemma queryAgreement_unfiltered_sample :
  queryAgreement (fun _ => false) None [sample_agreement] sample_jobs
  = [mkAgreementWithJobs (set_isActive false sample_agreement)
       [mkJobModel "/ipfs/QmData" FINISHED None None]].
Proof.
  exact (proj1 (queryAgreement_unfiltered (fun _ => false) None [sample_agreement]
                  sample_jobs eq_refl)).
Defined.

Lemma queryAgreement_filters_sample :
  queryAgreement (fun _ => true) (Some "pinned") [sample_agreement] sample_jobs = [].
Proof.
  apply (proj2 (proj2 (proj2 (queryAgreement_filters (fun _ => true) [sample_agreement]
                                 sample_jobs)))); discriminate.
Defined.
